(** * walterfetch middleware: rate limiting, retry, circuit breaker,
      LRU cache, proxy pool and header generation

    A shallow embedding of [src/middleware/rate_limiter.py],
    [src/middleware/cache.py] and [src/middleware/proxy_manager.py].

    Conventions of the embedding:
    - Python [float] values (token counts, timestamps, delays, scores) are
      exact rationals [Q]; the rounding of IEEE doubles is not modelled.
      The one operation of the code that raises on a result out of the
      range of a double, the power [**] of the retry delay, raises in the
      model too.
    - Python [int] values are [Z].
    - [time.time()] and [random] are inputs: every function that reads the
      clock or draws a random number takes the reading as an argument.
    - Every method that mutates [self] returns the new object.
    - [async with self._lock] sections run to completion one after the
      other, so a sequence of calls is a list of events. *)

From Stdlib Require Import ZArith QArith Qminmax Qpower Qabs Lqa Lia List String.
From stdpp Require Import base gmap strings list sorting.

Local Open Scope Z_scope.

(** Strict comparison on rationals, as a boolean ([a < b]). *)
Definition Qlt_bool (a b : Q) : bool := negb (Qle_bool b a).

(** ** rate_limiter.py : class RateLimiter *)
Module RateLimiter.

Record t := mk
  { rate : Q;          (* requests_per_second *)
    burst : Z;
    tokens : Q;
    last_update : Q }.

(** [__init__]: the bucket starts full; [now] is the reading of
    [time.time()]. *)
Definition __init__ (requests_per_second : Q) (burst : Z) (now : Q) : t :=
  {| rate := requests_per_second;
     burst := burst;
     tokens := inject_Z burst;
     last_update := now |}.

(** Lines 76-84 of [acquire]: the lazy refill at clock reading [now]. *)
Definition refill (self : t) (now : Q) : t :=
  let elapsed := (now - last_update self)%Q in
  {| rate := rate self;
     burst := burst self;
     tokens := Qmin (inject_Z (burst self)) (tokens self + elapsed * rate self)%Q;
     last_update := now |}.

(** What one turn of the [while True] loop of [acquire] does after the
    refill. *)
Inductive turn :=
| Granted                       (* tokens deducted, [return] *)
| Sleep (wait_time : Q)         (* [await asyncio.sleep(wait_time)] *)
| ZeroDivisionError.            (* [(tokens - self.tokens) / self.rate], rate 0 *)

(** One turn of the loop of [acquire(tokens=n)]. *)
Definition acquire_turn (self : t) (n : Z) (now : Q) : t * turn :=
  let self := refill self now in
  if Qle_bool (inject_Z n) (tokens self) then
    ({| rate := rate self; burst := burst self;
        tokens := (tokens self - inject_Z n)%Q;
        last_update := last_update self |}, Granted)
  else if Qeq_bool (rate self) 0 then (self, ZeroDivisionError)
  else (self, Sleep ((inject_Z n - tokens self) / rate self)%Q).

(** [acquire(n)]: the loop, one clock reading per turn.  The readings
    are the fuel: [None] as second component means the caller is still
    suspended when the readings run out.  The rest of the readings is
    returned for the next caller (the lock is held across the sleeps, so
    callers are served one after the other). *)
Fixpoint acquire (self : t) (n : Z) (clock : list Q)
  : t * option turn * list Q :=
  match clock with
  | [] => (self, None, [])
  | now :: clock' =>
      match acquire_turn self n now with
      | (self', Sleep _) => acquire self' n clock'
      | (self', r) => (self', Some r, clock')
      end
  end.

(** The observation points of a run: the bucket after every refill and
    after every deduction, for the callers [calls] (their [n], in lock
    order) and the clock readings [clock]. *)
Fixpoint observe (self : t) (calls : list Z) (clock : list Q) : list t :=
  match clock with
  | [] => []
  | now :: clock' =>
      match calls with
      | [] => []
      | n :: calls' =>
          match acquire_turn self n now with
          | (self', Sleep _) => refill self now :: observe self' calls clock'
          | (self', _) => refill self now :: self' :: observe self' calls' clock'
          end
      end
  end.

(** The bucket after serving [calls] one after the other with [acquire]. *)
Fixpoint serve (self : t) (calls : list Z) (clock : list Q) : t :=
  match calls with
  | [] => self
  | n :: calls' =>
      let '(self', _, clock') := acquire self n clock in
      serve self' calls' clock'
  end.

(** Clock readings that never go back, starting from [prev]. *)
Fixpoint nondecreasing (prev : Q) (clock : list Q) : Prop :=
  match clock with
  | [] => True
  | now :: clock' => (prev <= now)%Q /\ nondecreasing now clock'
  end.

(** The invariant of the spec: [0 <= tokens <= capacity]. *)
Definition within_capacity (self : t) : Prop :=
  (0 <= tokens self)%Q /\ (tokens self <= inject_Z (burst self))%Q.

End RateLimiter.

(** ** rate_limiter.py : class RetryConfig, class RetryHandler *)
Module RetryHandler.

Record RetryConfig := mkRetryConfig
  { max_retries : Z;
    base_delay : Q;
    max_delay : Q;
    exponential_base : Q;
    jitter : bool;
    retry_on_status : list Z }.

(** The dataclass defaults, with [__post_init__] filling [retry_on_status]. *)
Definition default_config : RetryConfig :=
  {| max_retries := 3;
     base_delay := 1;
     max_delay := 60;
     exponential_base := 2;
     jitter := true;
     retry_on_status := [429; 500; 502; 503; 504] |}.

(** [random.uniform(a, b)] is [a + (b - a) * random()]; [u] is the value of
    [random()], a number of the unit interval. *)
Definition uniform (a b u : Q) : Q := (a + (b - a) * u)%Q.

(** The largest double is [2^1024 - 2^971]; a result whose magnitude is
    [2^1024 - 2^970] or more rounds to infinity. *)
Definition float_overflow : Q := (2 ^ 1024 - 2 ^ 970)%Q.

(** [x ** n] for a float [x] and an int [n >= 0]: [None] stands for the
    [OverflowError] that [float.__pow__] raises when the result is out of
    the range of a double. *)
Definition float_pow (x : Q) (n : Z) : option Q :=
  let p := (x ^ n)%Q in
  if Qle_bool float_overflow (Qabs p) then None else Some p.

(** [_calculate_delay(attempt)], with the random draw [u] made explicit;
    [None] is the [OverflowError] of the power.  (A product that leaves the
    range of a double is infinite and the minimum is [max_delay], as it is
    here.) *)
Definition _calculate_delay (config : RetryConfig) (attempt : Z) (u : Q)
  : option Q :=
  match float_pow (exponential_base config) attempt with
  | None => None
  | Some power =>
      let delay :=
        Qmin (base_delay config * power)%Q (max_delay config) in
      if jitter config then
        let jitter := uniform 0 (delay * (1 # 10)) u in
        Some (delay + jitter)%Q
      else Some delay
  end.

Section Execute.

(** [R]: what the wrapped coroutine returns; [status_code r] is
    [Some c] when [hasattr(r, 'status_code')] and the attribute is [c].
    [E]: what it raises; [is_Exception e] tells whether [e] is an instance
    of [Exception], the class the [except] clause catches (cancellation and
    interpreter exits derive from [BaseException] only). *)
Context {R E : Type}.
Variable status_code : R -> option Z.
Variable is_Exception : E -> bool.

(** One invocation of the wrapped coroutine. *)
Inductive outcome :=
| Return (r : R)
| Raise (e : E).

(** What [execute] raises. *)
Inductive error :=
| HTTPStatusError (response : R)   (* raised by [execute] itself, line 193 *)
| Raised (e : E)                   (* the exception of the coroutine *)
| TypeError                        (* [raise None], line 221 *)
| OverflowError.                   (* raised by [_calculate_delay], line 212 *)

(** [result.status_code in self.config.retry_on_status], guarded by
    [hasattr]. *)
Definition retryable (config : RetryConfig) (r : R) : bool :=
  match status_code r with
  | Some c => existsb (Z.eqb c) (retry_on_status config)
  | None => false
  end.

(** A finished call of [execute]: what it returned or raised, how many
    times it invoked the coroutine, and the delays it slept, in order. *)
Record run := mkRun
  { result : R + error;
    invocations : nat;
    sleeps : list Q }.

(** The [for attempt in range(...)] loop from [attempt] on, with [fuel]
    iterations left.  [func i] is the outcome of the [i]-th invocation
    (counted from 0) and [u i] the random draw of the [i]-th delay. *)
Fixpoint attempts (config : RetryConfig) (func : nat -> outcome) (u : nat -> Q)
    (fuel : nat) (attempt : nat) (last_exception : option error)
    (slept : list Q) : run :=
  match fuel with
  | O =>
      (* line 221: [raise last_exception] *)
      {| result := inr (match last_exception with
                        | Some e => e
                        | None => TypeError
                        end);
         invocations := attempt;
         sleeps := slept |}
  | S fuel' =>
      let handler (e : error) :=
        if Z.of_nat attempt =? max_retries config then
          {| result := inr e; invocations := S attempt; sleeps := slept |}
        else
          match _calculate_delay config (Z.of_nat attempt) (u attempt) with
          | Some delay =>
              attempts config func u fuel' (S attempt) (Some e) (slept ++ [delay])
          | None =>
              (* the handler itself raises: no further attempt *)
              {| result := inr OverflowError; invocations := S attempt;
                 sleeps := slept |}
          end
      in
      match func attempt with
      | Return r =>
          if retryable config r then handler (HTTPStatusError r)
          else {| result := inl r; invocations := S attempt; sleeps := slept |}
      | Raise e =>
          if is_Exception e then handler (Raised e)
          else {| result := inr (Raised e); invocations := S attempt;
                  sleeps := slept |}
      end
  end.

(** [execute(func, ...)]: [range(max_retries + 1)] has
    [Z.to_nat (max_retries + 1)] elements (none when the bound is not
    positive). *)
Definition execute (config : RetryConfig) (func : nat -> outcome)
    (u : nat -> Q) : run :=
  attempts config func u (Z.to_nat (max_retries config + 1)) 0 None [].

(** An invocation that fails in the sense of the retry handler: it raises
    an [Exception], or returns a result with a retryable status code. *)
Definition fails (config : RetryConfig) (o : outcome) : Prop :=
  match o with
  | Return r => retryable config r = true
  | Raise e => is_Exception e = true
  end.

(** The failure that [execute] surfaces for a failed invocation. *)
Definition failure_of (o : outcome) : error :=
  match o with
  | Return r => HTTPStatusError r
  | Raise e => Raised e
  end.

End Execute.

(** [RetryConfig(max_retries=1030)]: the other fields at their defaults. *)
Definition retries_1030 : RetryConfig :=
  {| max_retries := 1030;
     base_delay := 1;
     max_delay := 60;
     exponential_base := 2;
     jitter := true;
     retry_on_status := [429; 500; 502; 503; 504] |}.

(** Concrete operations for the examples: a response is its status code,
    every exception is an instance of [Exception]. *)
Definition always_503 (_ : nat) : @outcome Z unit := Return 503.

Definition flaky_then_200 (i : nat) : @outcome Z unit :=
  if (i <? 2)%nat then Return 503 else Return 200.

End RetryHandler.

(** ** rate_limiter.py : class CircuitBreaker *)
Module CircuitBreaker.

Inductive State := CLOSED | OPEN | HALF_OPEN.

Record t := mk
  { failure_threshold : Z;
    recovery_timeout : Q;
    _state : State;
    _failure_count : Z;
    _last_failure_time : option Q;      (* [None] until the first failure *)
    _success_count : Z }.

Definition __init__ (failure_threshold : Z) (recovery_timeout : Q) : t :=
  {| failure_threshold := failure_threshold;
     recovery_timeout := recovery_timeout;
     _state := CLOSED;
     _failure_count := 0;
     _last_failure_time := None;
     _success_count := 0 |}.

Definition set_state (self : t) (s : State) : t :=
  {| failure_threshold := failure_threshold self;
     recovery_timeout := recovery_timeout self;
     _state := s;
     _failure_count := _failure_count self;
     _last_failure_time := _last_failure_time self;
     _success_count := _success_count self |}.

(** [_should_attempt_reset], at clock reading [now]. *)
Definition _should_attempt_reset (self : t) (now : Q) : bool :=
  match _last_failure_time self with
  | None => false
  | Some last => Qle_bool (recovery_timeout self) (now - last)
  end.

(** [_on_success]. *)
Definition _on_success (self : t) : t :=
  let self :=
    {| failure_threshold := failure_threshold self;
       recovery_timeout := recovery_timeout self;
       _state := _state self;
       _failure_count := 0;
       _last_failure_time := _last_failure_time self;
       _success_count := _success_count self |} in
  match _state self with
  | HALF_OPEN =>
      let successes := _success_count self + 1 in
      if 2 <=? successes then
        {| failure_threshold := failure_threshold self;
           recovery_timeout := recovery_timeout self;
           _state := CLOSED;
           _failure_count := _failure_count self;
           _last_failure_time := _last_failure_time self;
           _success_count := 0 |}
      else
        {| failure_threshold := failure_threshold self;
           recovery_timeout := recovery_timeout self;
           _state := _state self;
           _failure_count := _failure_count self;
           _last_failure_time := _last_failure_time self;
           _success_count := successes |}
  | _ => self
  end.

(** [_on_failure], at clock reading [now]. *)
Definition _on_failure (self : t) (now : Q) : t :=
  let self :=
    {| failure_threshold := failure_threshold self;
       recovery_timeout := recovery_timeout self;
       _state := _state self;
       _failure_count := _failure_count self + 1;
       _last_failure_time := Some now;
       _success_count := _success_count self |} in
  match _state self with
  | HALF_OPEN => set_state self OPEN
  | _ =>
      if failure_threshold self <=? _failure_count self
      then set_state self OPEN
      else self
  end.

Section Call.

(** [R]: what the wrapped coroutine returns.  [E]: what it raises;
    [expected e] tells whether [e] is an instance of
    [self.expected_exception]. *)
Context {R E : Type}.
Variable expected : E -> bool.

(** What the wrapped coroutine does if it is invoked. *)
Inductive outcome :=
| Return (r : R)
| Raise (e : E).

Inductive error :=
| CircuitBreakerError
| Raised (e : E).

(** A finished [call]: the breaker afterwards, whether the wrapped
    coroutine was invoked, and what [call] returned or raised. *)
Record called := mkCalled
  { breaker : t;
    invoked : bool;
    result : R + error }.

(** [call(func, ...)].  [now] is the clock reading of
    [_should_attempt_reset], [func] what the coroutine does if invoked,
    [later] the clock reading of [_on_failure]. *)
Definition call (self : t) (now : Q) (func : outcome) (later : Q) : called :=
  let attempt (self : t) :=
    match func with
    | Return r =>
        {| breaker := _on_success self; invoked := true; result := inl r |}
    | Raise e =>
        if expected e then
          {| breaker := _on_failure self later; invoked := true;
             result := inr (Raised e) |}
        else
          {| breaker := self; invoked := true; result := inr (Raised e) |}
    end in
  match _state self with
  | OPEN =>
      if _should_attempt_reset self now then attempt (set_state self HALF_OPEN)
      else {| breaker := self; invoked := false;
              result := inr CircuitBreakerError |}
  | _ => attempt self
  end.

(** A sequence of calls, one after the other: each is the reading of the
    clock at the call, what the coroutine does, and the reading of the
    clock when a failure is recorded.  The list collects every finished
    call. *)
Fixpoint calls (self : t) (trace : list (Q * outcome * Q)) : list called :=
  match trace with
  | [] => []
  | (now, func, later) :: trace' =>
      let c := call self now func later in
      c :: calls (breaker c) trace'
  end.

End Call.

(** The states the breaker goes through on a trace, for an operation
    that returns nothing and whose exceptions are all expected. *)
Definition states (self : t) (trace : list (Q * @outcome unit unit * Q))
  : list State :=
  map (fun c => _state (breaker c)) (calls (fun _ => true) self trace).

Definition ok : @outcome unit unit := Return tt.
Definition ko : @outcome unit unit := Raise tt.

End CircuitBreaker.

(** ** proxy_manager.py : class ProxyHealth, class ProxyInfo,
       class ProxyManager *)
Module ProxyManager.

Inductive ProxyHealth := HEALTHY | DEGRADED | FAILED.

Record ProxyInfo := mkProxyInfo
  { url : string;
    health : ProxyHealth;
    success_count : Z;
    failure_count : Z;
    avg_response_time : Q;
    last_checked : Q;
    total_requests : Z }.

(** [ProxyInfo(url=url)]: the dataclass defaults; [now] is the reading of
    [time.time()] of the [last_checked] default factory. *)
Definition new_proxy (url : string) (now : Q) : ProxyInfo :=
  {| url := url;
     health := HEALTHY;
     success_count := 0;
     failure_count := 0;
     avg_response_time := 0;
     last_checked := now;
     total_requests := 0 |}.

(** Property [success_rate]. *)
Definition success_rate (self : ProxyInfo) : Q :=
  if total_requests self =? 0 then 1%Q
  else (inject_Z (success_count self) / inject_Z (total_requests self))%Q.

(** Property [score]. *)
Definition score (self : ProxyInfo) : Q :=
  let success_score := (success_rate self * (7 # 10))%Q in
  let time_score :=
    (Qmax 0 (1 - avg_response_time self / 10) * (3 # 10))%Q in
  (success_score + time_score)%Q.

(** [clamp(x, lo, hi)] of the spec's score formula. *)
Definition clamp (x lo hi : Q) : Q := Qmax lo (Qmin x hi).

Record t := mk
  { proxies : gmap string ProxyInfo;
    max_failures : Z }.

(** [__init__]: one fresh record per URL (the rotation and health-check
    settings play no part in the bookkeeping below and are left out). *)
Definition __init__ (urls : list string) (max_failures : Z) (now : Q) : t :=
  {| proxies :=
       fold_left (fun m u => <[u := new_proxy u now]> m) urls ∅;
     max_failures := max_failures |}.

(** The body of [record_success] on the record of the proxy. *)
Definition succeed (proxy : ProxyInfo) (response_time : Q) : ProxyInfo :=
  let alpha := (1 # 5)%Q in
  {| url := url proxy;
     health := match health proxy with
               | DEGRADED => HEALTHY
               | h => h
               end;
     success_count := success_count proxy + 1;
     failure_count := failure_count proxy;
     avg_response_time :=
       (alpha * response_time + (1 - alpha) * avg_response_time proxy)%Q;
     last_checked := last_checked proxy;
     total_requests := total_requests proxy + 1 |}.

(** The body of [record_failure] on the record of the proxy. *)
Definition fail (max_failures : Z) (proxy : ProxyInfo) : ProxyInfo :=
  let proxy :=
    {| url := url proxy;
       health := health proxy;
       success_count := success_count proxy;
       failure_count := failure_count proxy + 1;
       avg_response_time := avg_response_time proxy;
       last_checked := last_checked proxy;
       total_requests := total_requests proxy + 1 |} in
  {| url := url proxy;
     health := if max_failures <=? failure_count proxy then FAILED
               else if Qlt_bool (success_rate proxy) (1 # 2) then DEGRADED
               else health proxy;
     success_count := success_count proxy;
     failure_count := failure_count proxy;
     avg_response_time := avg_response_time proxy;
     last_checked := last_checked proxy;
     total_requests := total_requests proxy |}.

(** [record_success(proxy_url, response_time)]: nothing happens for a URL
    that is not in the pool. *)
Definition record_success (self : t) (proxy_url : string) (response_time : Q) : t :=
  match proxies self !! proxy_url with
  | Some proxy =>
      {| proxies := <[proxy_url := succeed proxy response_time]> (proxies self);
         max_failures := max_failures self |}
  | None => self
  end.

(** [record_failure(proxy_url)]. *)
Definition record_failure (self : t) (proxy_url : string) : t :=
  match proxies self !! proxy_url with
  | Some proxy =>
      {| proxies := <[proxy_url := fail (max_failures self) proxy]> (proxies self);
         max_failures := max_failures self |}
  | None => self
  end.

(** [_check_proxy(proxy_url)]: [probe] is [Some response_time] when the
    request to the health-check URL went through, [None] when it raised. *)
Definition _check_proxy (self : t) (proxy_url : string) (probe : option Q) : t :=
  match probe with
  | Some response_time => record_success self proxy_url response_time
  | None => record_failure self proxy_url
  end.

(** What happens to the pool: reports of the callers and probes of the
    health-check loop. *)
Inductive event :=
| Success (proxy_url : string) (response_time : Q)
| Failure (proxy_url : string)
| Probe (proxy_url : string) (probe : option Q).

Definition step (self : t) (ev : event) : t :=
  match ev with
  | Success u rt => record_success self u rt
  | Failure u => record_failure self u
  | Probe u p => _check_proxy self u p
  end.

Definition run (self : t) (evs : list event) : t := fold_left step evs self.

(** What an event does to the record of [proxy_url]. *)
Definition on_record (max_failures : Z) (proxy_url : string)
    (proxy : ProxyInfo) (ev : event) : ProxyInfo :=
  match ev with
  | Success u rt | Probe u (Some rt) =>
      if decide (u = proxy_url) then succeed proxy rt else proxy
  | Failure u | Probe u None =>
      if decide (u = proxy_url) then fail max_failures proxy else proxy
  end.

(** The response time an event records, if it records a success. *)
Definition recorded_time (ev : event) : option Q :=
  match ev with
  | Success _ rt => Some rt
  | Probe _ (Some rt) => Some rt
  | _ => None
  end.

(** Every recorded response time is non-negative. *)
Definition nonneg_times (evs : list event) : Prop :=
  Forall (fun ev => match recorded_time ev with
                    | Some rt => (0 <= rt)%Q
                    | None => True
                    end) evs.

(** A record is marked failed only with a failure count that has reached
    the threshold. *)
Definition failed_by_count (mf : Z) (p : ProxyInfo) : Prop :=
  health p = FAILED -> mf <= failure_count p.

End ProxyManager.

(** ** cache.py : class CacheEntry, class LRUCache *)
Module LRUCache.

(** The time of the last touch of every key, after a touch of [k] at
    time [now]. *)
Definition touch_at (last_touch : string -> nat) (k : string) (now : nat)
  : string -> nat :=
  fun k' => if String.eqb k' k then now else last_touch k'.

(** [a] was last touched before [b]. *)
Definition older (last_touch : string -> nat) (a b : string) : Prop :=
  (last_touch a < last_touch b)%nat.

(** The keys [ks] are in the order of their last touch, the least
    recently used first, and none was touched after [clock]. *)
Definition by_recency (last_touch : string -> nat) (clock : nat)
    (ks : list string) : Prop :=
  StronglySorted (older last_touch) ks /\
  Forall (fun k => (last_touch k <= clock)%nat) ks.

Section Cache.

(** [V]: the cached values.  [json_dumps_len v] is [len(json.dumps(v))],
    [None] when [json.dumps] raises. *)
Context {V : Type}.
Variable json_dumps_len : V -> option Z.

Record CacheEntry := mkCacheEntry
  { key : string;
    value : V;
    created_at : Q;
    ttl : Z;
    hits : Z;
    size_bytes : Z }.

(** [CacheEntry.is_expired()], at clock reading [now]. *)
Definition is_expired (self : CacheEntry) (now : Q) : bool :=
  if ttl self <=? 0 then false
  else Qlt_bool (inject_Z (ttl self)) (now - created_at self).

(** [CacheEntry.touch()]. *)
Definition touch (self : CacheEntry) : CacheEntry :=
  {| key := key self; value := value self; created_at := created_at self;
     ttl := ttl self; hits := hits self + 1; size_bytes := size_bytes self |}.

(** *** collections.OrderedDict

    The entries in insertion order, the oldest first; every key occurs
    once. *)
Definition odict := list (string * CacheEntry).

Definition keys (d : odict) : list string := map fst d.

(** [d.get(k)], [None] when [k not in d]. *)
Fixpoint od_get (d : odict) (k : string) : option CacheEntry :=
  match d with
  | [] => None
  | (k', e) :: d' => if String.eqb k' k then Some e else od_get d' k
  end.

(** [del d[k]]. *)
Fixpoint od_del (d : odict) (k : string) : odict :=
  match d with
  | [] => []
  | (k', e) :: d' =>
      if String.eqb k' k then od_del d' k else (k', e) :: od_del d' k
  end.

(** The assignment to an existing key: the entry changes, its place
    does not. *)
Fixpoint od_replace (d : odict) (k : string) (e : CacheEntry) : odict :=
  match d with
  | [] => []
  | (k', e') :: d' =>
      if String.eqb k' k then (k', e) :: d' else (k', e') :: od_replace d' k e
  end.

(** [d[k] = e]: a new key goes to the end. *)
Definition od_set (d : odict) (k : string) (e : CacheEntry) : odict :=
  match od_get d k with
  | Some _ => od_replace d k e
  | None => d ++ [(k, e)]
  end.

(** [d.move_to_end(k)], for a key of [d]. *)
Definition od_move_to_end (d : odict) (k : string) : odict :=
  match od_get d k with
  | Some e => od_del d k ++ [(k, e)]
  | None => d
  end.

(** *** LRUCache *)
Record t := mk
  { max_size : Z;
    default_ttl : Z;
    _cache : odict;
    _hits : Z;
    _misses : Z }.

Definition __init__ (max_size default_ttl : Z) : t :=
  {| max_size := max_size; default_ttl := default_ttl;
     _cache := []; _hits := 0; _misses := 0 |}.

Definition with_cache (self : t) (d : odict) : t :=
  {| max_size := max_size self; default_ttl := default_ttl self;
     _cache := d; _hits := _hits self; _misses := _misses self |}.

Definition miss (self : t) : t :=
  {| max_size := max_size self; default_ttl := default_ttl self;
     _cache := _cache self; _hits := _hits self; _misses := _misses self + 1 |}.

Definition hit (self : t) : t :=
  {| max_size := max_size self; default_ttl := default_ttl self;
     _cache := _cache self; _hits := _hits self + 1; _misses := _misses self |}.

(** [get(key)], at clock reading [now]: the value, and the cache
    afterwards.  [entry.touch()] changes the entry that the dict holds. *)
Definition get (self : t) (key : string) (now : Q) : option V * t :=
  match od_get (_cache self) key with
  | None => (None, miss self)
  | Some entry =>
      if is_expired entry now then
        (None, miss (with_cache self (od_del (_cache self) key)))
      else
        let d := od_move_to_end (_cache self) key in
        let d := od_replace d key (touch entry) in
        (Some (value entry), hit (with_cache self d))
  end.

(** The loop [while len(self._cache) > self.max_size: popitem(last=False)]:
    the evicted entries in the order of their eviction, what is left, and
    whether [popitem] raised [KeyError] on an empty dict. *)
Fixpoint evict (max_size : Z) (d : odict) {struct d} : odict * odict * bool :=
  if max_size <? Z.of_nat (length d) then
    match d with
    | [] => ([], [], true)
    | kv :: d' =>
        let '(evicted, rest, raised) := evict max_size d' in
        (kv :: evicted, rest, raised)
    end
  else ([], d, false).

(** A finished [set]: the cache afterwards, the entries it evicted, and
    whether it raised. *)
Record stored := mkStored
  { cache : t;
    evicted : odict;
    raised : bool }.

(** [set(key, value, ttl)], at clock reading [now]. *)
Definition set (self : t) (k : string) (v : V) (ttl : option Z) (now : Q)
  : stored :=
  let ttl := match ttl with Some n => n | None => default_ttl self end in
  let size_bytes := match json_dumps_len v with Some n => n | None => 0 end in
  let entry :=
    {| key := k; value := v; created_at := now; ttl := ttl; hits := 0;
       size_bytes := size_bytes |} in
  match od_get (_cache self) k with
  | Some _ =>
      let d := od_set (_cache self) k entry in
      let d := od_move_to_end d k in
      {| cache := with_cache self d; evicted := []; raised := false |}
  | None =>
      let d := od_set (_cache self) k entry in
      let '(evicted, rest, raised) := evict (max_size self) d in
      {| cache := with_cache self rest; evicted := evicted; raised := raised |}
  end.

(** [delete(key)]. *)
Definition delete (self : t) (k : string) : bool * t :=
  match od_get (_cache self) k with
  | Some _ => (true, with_cache self (od_del (_cache self) k))
  | None => (false, self)
  end.

(** [clear()]. *)
Definition clear (self : t) : t :=
  {| max_size := max_size self; default_ttl := default_ttl self;
     _cache := []; _hits := 0; _misses := 0 |}.

(** The comprehension [[key for key, entry in d.items() if
    entry.is_expired()]]: every [is_expired()] reads the clock for itself,
    and [clock j] is the time when the entry at place [j] of the dict is
    examined; [i] is the place of the first entry of [d]. *)
Fixpoint expired_keys (d : odict) (clock : nat -> Q) (i : nat) : list string :=
  match d with
  | [] => []
  | (k, entry) :: d' =>
      if is_expired entry (clock i) then k :: expired_keys d' clock (S i)
      else expired_keys d' clock (S i)
  end.

(** [cleanup_expired()]: the keys are collected first, then deleted one
    by one. *)
Definition cleanup_expired (self : t) (clock : nat -> Q) : t :=
  with_cache self
    (fold_left od_del (expired_keys (_cache self) clock 0) (_cache self)).

(** *** Runs of the cache *)
Inductive op :=
| DoGet (k : string) (now : Q)
| DoSet (k : string) (v : V) (ttl : option Z) (now : Q)
| DoDelete (k : string)
| DoClear
| DoCleanup (clock : nat -> Q).

Definition step (self : t) (o : op) : t :=
  match o with
  | DoGet k now => snd (get self k now)
  | DoSet k v ttl now => cache (set self k v ttl now)
  | DoDelete k => snd (delete self k)
  | DoClear => clear self
  | DoCleanup clock => cleanup_expired self clock
  end.

Definition run (self : t) (ops : list op) : t := fold_left step ops self.

(** The key that an operation touches: [set] touches its key, [get]
    touches its key when it finds a live entry. *)
Definition touched (self : t) (o : op) : option string :=
  match o with
  | DoGet k now =>
      match od_get (_cache self) k with
      | Some entry => if is_expired entry now then None else Some k
      | None => None
      end
  | DoSet k _ _ _ => Some k
  | _ => None
  end.

(** Recency, in the spec's words: the time of the last [get] or [set]
    touch of a key.  Time is the number of the operation in the run,
    counted from [clock + 1]; [last_touch] holds the touches so far. *)
Definition touch_of (self : t) (o : op) (clock : nat)
    (last_touch : string -> nat) : string -> nat :=
  match touched self o with
  | Some k => touch_at last_touch k (S clock)
  | None => last_touch
  end.

Fixpoint recency (self : t) (ops : list op) (clock : nat)
    (last_touch : string -> nat) : string -> nat :=
  match ops with
  | [] => last_touch
  | o :: ops' =>
      recency (step self o) ops' (S clock) (touch_of self o clock last_touch)
  end.

End Cache.

End LRUCache.

(** ** proxy_manager.py : class UserAgentManager *)
Module UserAgentManager.

(** The class attribute [USER_AGENTS] as the module defines it. *)
Definition USER_AGENTS : list string :=
  [ "Mozilla/5.0 (Windows NT 10.0; Win64; x64) AppleWebKit/537.36 (KHTML, like Gecko) Chrome/120.0.0.0 Safari/537.36";
    "Mozilla/5.0 (Windows NT 10.0; Win64; x64) AppleWebKit/537.36 (KHTML, like Gecko) Chrome/119.0.0.0 Safari/537.36";
    "Mozilla/5.0 (Macintosh; Intel Mac OS X 10_15_7) AppleWebKit/537.36 (KHTML, like Gecko) Chrome/120.0.0.0 Safari/537.36";
    "Mozilla/5.0 (Macintosh; Intel Mac OS X 10_15_7) AppleWebKit/537.36 (KHTML, like Gecko) Chrome/119.0.0.0 Safari/537.36";
    "Mozilla/5.0 (Windows NT 10.0; Win64; x64; rv:121.0) Gecko/20100101 Firefox/121.0";
    "Mozilla/5.0 (Windows NT 10.0; Win64; x64; rv:120.0) Gecko/20100101 Firefox/120.0";
    "Mozilla/5.0 (Macintosh; Intel Mac OS X 10.15; rv:121.0) Gecko/20100101 Firefox/121.0";
    "Mozilla/5.0 (Macintosh; Intel Mac OS X 10_15_7) AppleWebKit/605.1.15 (KHTML, like Gecko) Version/17.1 Safari/605.1.15";
    "Mozilla/5.0 (Windows NT 10.0; Win64; x64) AppleWebKit/537.36 (KHTML, like Gecko) Chrome/120.0.0.0 Safari/537.36 Edg/120.0.0.0";
    "Mozilla/5.0 (X11; Linux x86_64) AppleWebKit/537.36 (KHTML, like Gecko) Chrome/120.0.0.0 Safari/537.36" ]%string.

(** The manager together with the list it shares with its class:
    [add_user_agent] appends to the class attribute. *)
Record t := mk
  { agents : list string;
    rotation_strategy : string;
    _current_index : Z }.

(** [__init__], for the first manager of a process: the class attribute
    is still the list above.  [USER_AGENTS] belongs to the class, so a
    manager made after calls of [add_user_agent], on any manager, starts
    with the list those calls left: it is [mk l rotation_strategy 0] for
    that list [l]. *)
Definition __init__ (rotation_strategy : string) : t :=
  {| agents := USER_AGENTS;
     rotation_strategy := rotation_strategy;
     _current_index := 0 |}.

(** [get()]: [pick] is the index that [random.choice] draws.  The list is
    never empty (it starts with ten entries and only grows), so the
    default of [nth] is not reached. *)
Definition get (self : t) (pick : nat) : string * t :=
  if String.eqb (rotation_strategy self) "round_robin" then
    let i := _current_index self mod Z.of_nat (length (agents self)) in
    (nth (Z.to_nat i) (agents self) ""%string,
     {| agents := agents self;
        rotation_strategy := rotation_strategy self;
        _current_index := _current_index self + 1 |})
  else
    (nth (pick mod length (agents self)) (agents self) ""%string, self).

(** [add_user_agent(user_agent)]. *)
Definition add_user_agent (self : t) (user_agent : string) : t :=
  if bool_decide (user_agent ∈ agents self) then self
  else {| agents := agents self ++ [user_agent];
          rotation_strategy := rotation_strategy self;
          _current_index := _current_index self |}.

End UserAgentManager.

(** ** proxy_manager.py : class HeaderGenerator *)
Module HeaderGenerator.

(** The fixed entries of the [headers] literal of [generate]. *)
Definition defaults (user_agent : string) : gmap string string :=
  <["Cache-Control" := "max-age=0"]>
  (<["Sec-Fetch-Site" := "none"]>
  (<["Sec-Fetch-Mode" := "navigate"]>
  (<["Sec-Fetch-Dest" := "document"]>
  (<["Upgrade-Insecure-Requests" := "1"]>
  (<["Connection" := "keep-alive"]>
  (<["DNT" := "1"]>
  (<["Accept-Encoding" := "gzip, deflate, br"]>
  (<["Accept-Language" := "en-US,en;q=0.9"]>
  (<["Accept" := "text/html,application/xhtml+xml,application/xml;q=0.9,image/webp,*/*;q=0.8"]>
  (<["User-Agent" := user_agent]> ∅))))))))))%string.

(** Truth value of [custom_headers]: [None] and the empty dict are false. *)
Definition truthy (custom_headers : option (gmap string string)) : bool :=
  match custom_headers with
  | Some h => negb (bool_decide (h = ∅))
  | None => false
  end.

(** ['Referer' not in custom_headers]. *)
Definition lacks_referer (custom_headers : option (gmap string string)) : bool :=
  match custom_headers with
  | Some h => bool_decide (h !! "Referer"%string = None)
  | None => false
  end.

Section Generate.

(** [urllib.parse.urlparse], of the Python library: the [scheme] and the
    [netloc] of a URL. *)
Variable urlparse : string -> string * string.

(** The origin that [generate] writes into [Referer]. *)
Definition origin (url : string) : string :=
  let parsed := urlparse url in
  (fst parsed +:+ "://" +:+ snd parsed +:+ "/")%string.

(** [generate(url, custom_headers)]; [pick] is the draw of the user-agent
    manager.  [dict.update] is the union that prefers the caller's
    entries. *)
Definition generate (user_agent_manager : UserAgentManager.t) (pick : nat)
    (url : string) (custom_headers : option (gmap string string))
  : gmap string string * UserAgentManager.t :=
  let '(ua, user_agent_manager) := UserAgentManager.get user_agent_manager pick in
  let headers := defaults ua in
  let headers :=
    if truthy custom_headers && lacks_referer custom_headers
    then <["Referer"%string := origin url]> headers
    else headers in
  let headers :=
    match custom_headers with
    | Some h => if truthy custom_headers then h ∪ headers else headers
    | None => headers
    end in
  (headers, user_agent_manager).

End Generate.

(** A parser for the examples: it knows one URL. *)
Definition example_urlparse (url : string) : string * string :=
  if String.eqb url "https://example.com/jobs?page=2"
  then ("https", "example.com")%string
  else (""%string, ""%string).

End HeaderGenerator.

(** ** rate_limiter.py : class DomainRateLimiter *)
Module DomainRateLimiter.

Record t := mk
  { rate : Q;
    burst : Z;
    _limiters : gmap string RateLimiter.t }.

Definition __init__ (requests_per_second : Q) (burst : Z) : t :=
  {| rate := requests_per_second; burst := burst; _limiters := ∅ |}.

(** The locked part of [acquire(domain)]: the limiter of a new domain is
    created; [now] is the clock reading of its constructor. *)
Definition ensure (self : t) (domain : string) (now : Q) : t :=
  match _limiters self !! domain with
  | Some _ => self
  | None =>
      {| rate := rate self; burst := burst self;
         _limiters :=
           <[domain := RateLimiter.__init__ (rate self) (burst self) now]>
             (_limiters self) |}
  end.

(** [acquire(domain)]: [now] is the reading of the constructor of a new
    limiter, [clock] the readings of the loop of [RateLimiter.acquire].
    The answer is that of [RateLimiter.acquire] on one token. *)
Definition acquire (self : t) (domain : string) (now : Q) (clock : list Q)
  : t * option RateLimiter.turn * list Q :=
  let self := ensure self domain now in
  match _limiters self !! domain with
  | Some limiter =>
      let '(limiter', r, clock') := RateLimiter.acquire limiter 1 clock in
      ({| rate := rate self; burst := burst self;
          _limiters := <[domain := limiter']> (_limiters self) |}, r, clock')
  | None => (self, None, clock)      (* not reached: [ensure] created it *)
  end.

(** [get_stats()]: tokens, rate and burst of every domain. *)
Definition get_stats (self : t) : gmap string (Q * Q * Z) :=
  (fun limiter => (RateLimiter.tokens limiter, RateLimiter.rate limiter,
                   RateLimiter.burst limiter)) <$> _limiters self.

End DomainRateLimiter.

(** ** rate_limiter.py : class AdaptiveRateLimiter *)
Module AdaptiveRateLimiter.

Record t := mk
  { current_rate : Q;
    min_rate : Q;
    max_rate : Q;
    adjustment_factor : Q;
    _limiter : RateLimiter.t }.

(** [__init__]; [now] is the clock reading of the constructor of the
    bucket, whose burst is the default 1. *)
Definition __init__ (initial_rate min_rate max_rate adjustment_factor now : Q)
  : t :=
  {| current_rate := initial_rate;
     min_rate := min_rate;
     max_rate := max_rate;
     adjustment_factor := adjustment_factor;
     _limiter := RateLimiter.__init__ initial_rate 1 now |}.

(** [acquire()]. *)
Definition acquire (self : t) (clock : list Q)
  : t * option RateLimiter.turn * list Q :=
  let '(limiter', r, clock') := RateLimiter.acquire (_limiter self) 1 clock in
  ({| current_rate := current_rate self; min_rate := min_rate self;
      max_rate := max_rate self; adjustment_factor := adjustment_factor self;
      _limiter := limiter' |}, r, clock').

(** [on_success()]: the bucket is rebuilt only when the rate changed.  The
    comparison is the one of exact rationals: where the product of doubles
    rounds back to [current_rate], the code keeps its bucket and this
    definition builds a new one. *)
Definition on_success (self : t) (now : Q) : t :=
  let old_rate := current_rate self in
  let new_rate :=
    Qmin (max_rate self)
         (current_rate self * (1 + adjustment_factor self * (1 # 10)))%Q in
  {| current_rate := new_rate;
     min_rate := min_rate self;
     max_rate := max_rate self;
     adjustment_factor := adjustment_factor self;
     _limiter := if negb (Qeq_bool new_rate old_rate)
                 then RateLimiter.__init__ new_rate 1 now
                 else _limiter self |}.

(** [on_rate_limit()]: the bucket is always rebuilt. *)
Definition on_rate_limit (self : t) (now : Q) : t :=
  let new_rate :=
    Qmax (min_rate self)
         (current_rate self * (1 - adjustment_factor self))%Q in
  {| current_rate := new_rate;
     min_rate := min_rate self;
     max_rate := max_rate self;
     adjustment_factor := adjustment_factor self;
     _limiter := RateLimiter.__init__ new_rate 1 now |}.

(** [on_error()]. *)
Definition on_error (self : t) (now : Q) : t := on_rate_limit self now.

(** What the callers do: they acquire a token (with the clock readings of
    the loop) and report back (with the clock reading of the bucket that
    the report may build). *)
Inductive event :=
| Acquired (clock : list Q)
| Succeeded (now : Q)
| RateLimited (now : Q)
| Errored (now : Q).

Definition step (self : t) (ev : event) : t :=
  match ev with
  | Acquired clock => fst (fst (acquire self clock))
  | Succeeded now => on_success self now
  | RateLimited now => on_rate_limit self now
  | Errored now => on_error self now
  end.

Definition run (self : t) (evs : list event) : t := fold_left step evs self.

(** The rate is within its bounds and the bucket runs at that rate, with
    the default burst. *)
Definition consistent (self : t) : Prop :=
  (min_rate self <= current_rate self)%Q /\
  (current_rate self <= max_rate self)%Q /\
  (RateLimiter.rate (_limiter self) == current_rate self)%Q /\
  RateLimiter.burst (_limiter self) = 1.

End AdaptiveRateLimiter.

(** ** rate_limiter.py : runs of [CircuitBreaker.call] *)
Module CircuitBreakerRuns.
Import CircuitBreaker.

Section Runs.
Context {R E : Type}.
Variable expected : E -> bool.

(** The breaker after a sequence of calls (see [CircuitBreaker.calls]). *)
Definition after (self : t) (trace : list (Q * @outcome R E * Q)) : t :=
  fold_left (fun b c => breaker (call expected b (fst (fst c)) (snd (fst c)) (snd c)))
            trace self.

(** A call whose operation raises an exception that counts as a failure. *)
Definition failing (c : Q * @outcome R E * Q) : Prop :=
  match snd (fst c) with
  | Raise e => expected e = true
  | Return _ => False
  end.

(** What every breaker that [__init__] built satisfies after any calls:
    the counter of successes is not negative, and an open breaker has the
    time of a failure. *)
Definition sound (self : t) : Prop :=
  0 <= _success_count self /\
  (_state self = OPEN -> exists last, _last_failure_time self = Some last).

End Runs.

End CircuitBreakerRuns.

(** ** cache.py : [LRUCache.get_stats], and counting the operations *)
Module LRUCacheStats.
Import LRUCache.

Section Stats.
Context {V : Type}.

(** The dict that [get_stats] returns. *)
Record stats := mkStats
  { size : Z;
    stats_max_size : Z;
    hits : Z;
    misses : Z;
    hit_rate : Q;
    total_size_bytes : Z;
    utilization : Q }.

(** [get_stats()]: [None] stands for the [ZeroDivisionError] of
    [len(self._cache) / self.max_size] when [max_size] is 0. *)
Definition get_stats (self : @t V) : option stats :=
  let total_requests := _hits self + _misses self in
  let hit_rate :=
    if 0 <? total_requests
    then (inject_Z (_hits self) / inject_Z total_requests)%Q
    else 0%Q in
  let total_size :=
    fold_right Z.add 0 (map (fun kv => size_bytes (snd kv)) (_cache self)) in
  if max_size self =? 0 then None
  else Some
    {| size := Z.of_nat (length (_cache self));
       stats_max_size := max_size self;
       hits := _hits self;
       misses := _misses self;
       hit_rate := hit_rate;
       total_size_bytes := total_size;
       utilization :=
         (inject_Z (Z.of_nat (length (_cache self))) / inject_Z (max_size self))%Q |}.

(** The calls of [get] in a run since the last [clear], the newest
    operation first in [rev_ops]. *)
Fixpoint gets_since_clear (rev_ops : list (@op V)) : Z :=
  match rev_ops with
  | [] => 0
  | DoGet _ _ :: rest => 1 + gets_since_clear rest
  | DoClear :: _ => 0
  | _ :: rest => gets_since_clear rest
  end.

(** The counters add up to [n]. *)
Definition counted (self : @t V) (n : Z) : Prop :=
  0 <= _hits self /\ 0 <= _misses self /\ _hits self + _misses self = n.

(** The entries of [d] that are not expired at the time when they are
    examined, [clock j] for the entry at place [j]; [i] is the place of the
    first entry of [d]. *)
Fixpoint live_at (d : @odict V) (clock : nat -> Q) (i : nat) : @odict V :=
  match d with
  | [] => []
  | (k, entry) :: d' =>
      if is_expired entry (clock i) then live_at d' clock (S i)
      else (k, entry) :: live_at d' clock (S i)
  end.

End Stats.

End LRUCacheStats.

(** ** cache.py : class ResponseCache *)
Module ResponseCache.
Import LRUCache.

(** The headers that take part in the key. *)
Definition cache_header_names : list string :=
  ["Accept"; "Accept-Language"; "User-Agent"]%string.

(** The loop that fills [cache_headers]; a [None] or empty [headers]
    leaves it empty. *)
Definition cache_headers (headers : option (gmap string string))
  : gmap string string :=
  match headers with
  | Some h =>
      if bool_decide (h = ∅) then ∅
      else
        fold_left
          (fun acc name =>
             match h !! name with
             | Some v => <[name := v]> acc
             | None => acc
             end)
          cache_header_names ∅
  | None => ∅
  end.

Section Keys.

(** [json.dumps(key_components, sort_keys=True)] on the URL, the method,
    the selected headers and the body, and the first 16 hexadecimal digits
    of the SHA-256 digest of a string: both of the Python library. *)
Variable json_dumps : string -> string -> gmap string string -> option string -> string.
Variable sha256_hex16 : string -> string.

(** [_make_key(url, method, headers, body)]. *)
Definition _make_key (url method : string)
    (headers : option (gmap string string)) (body : option string) : string :=
  let key_string := json_dumps url method (cache_headers headers) body in
  let key_hash := sha256_hex16 key_string in
  ("response:" +:+ method +:+ ":" +:+ key_hash)%string.

Context {V : Type}.
Variable json_dumps_len : V -> option Z.

(** [get_response(url, method, headers, body)], at clock reading [now]. *)
Definition get_response (self : @t V) (url method : string)
    (headers : option (gmap string string)) (body : option string) (now : Q)
  : option V * @t V :=
  get self (_make_key url method headers body) now.

(** [set_response(url, response, method, headers, body, ttl)], at clock
    reading [now]. *)
Definition set_response (self : @t V) (url : string) (response : V)
    (method : string) (headers : option (gmap string string))
    (body : option string) (ttl : option Z) (now : Q) : @stored V :=
  set json_dumps_len self (_make_key url method headers body) response ttl now.

End Keys.

End ResponseCache.

(** ** cache.py : class TieredCache *)
Module TieredCache.
Import LRUCache.

Section Tiers.
Context {V : Type}.
Variable json_dumps_len : V -> option Z.

(** [is_None v]: the cached value is the object [None]. *)
Variable is_None : V -> bool.

(** The tiers: the memory cache, and whether a second and a third store
    were given (their truth value is all that the class uses of them). *)
Record t := mk
  { l1 : @LRUCache.t V;
    l2 : bool;
    l3 : bool }.

(** [_get_from_l2] and [_get_from_l3]: the placeholders of the source. *)
Definition _get_from_l2 (key : string) : option V := None.
Definition _get_from_l3 (key : string) : option V := None.

(** [_set_to_l2] and [_set_to_l3] do nothing. *)
Definition _set_to_l2 (self : t) (key : string) (value : V) : t := self.
Definition _set_to_l3 (self : t) (key : string) (value : V) : t := self.

(** A value that is not [None]. *)
Definition not_None (value : option V) : option V :=
  match value with
  | Some v => if is_None v then None else Some v
  | None => None
  end.

Definition with_l1 (self : t) (c : @LRUCache.t V) : t :=
  {| l1 := c; l2 := l2 self; l3 := l3 self |}.

(** [get(key)]: [now] is the clock reading of the lookup in the memory
    cache, [later] that of a promotion into it. *)
Definition get (self : t) (key : string) (now later : Q) : option V * t :=
  let '(value, c) := LRUCache.get (l1 self) key now in
  let self := with_l1 self c in
  match not_None value with
  | Some v => (Some v, self)
  | None =>
      match (if l2 self then not_None (_get_from_l2 key) else None) with
      | Some v =>
          (Some v,
           with_l1 self (cache (LRUCache.set json_dumps_len (l1 self) key v None later)))
      | None =>
          match (if l3 self then not_None (_get_from_l3 key) else None) with
          | Some v =>
              let self := if l2 self then _set_to_l2 self key v else self in
              (Some v,
               with_l1 self
                 (cache (LRUCache.set json_dumps_len (l1 self) key v None later)))
          | None => (None, self)
          end
      end
  end.

(** [set(key, value, ttl)], at clock reading [now]. *)
Definition set (self : t) (key : string) (value : V) (ttl : option Z) (now : Q)
  : t :=
  let self :=
    with_l1 self (cache (LRUCache.set json_dumps_len (l1 self) key value ttl now)) in
  let self := if l2 self then _set_to_l2 self key value else self in
  let self := if l3 self then _set_to_l3 self key value else self in
  self.

End Tiers.

End TieredCache.

(** ** proxy_manager.py : [ProxyManager.get_proxy], [get_stats] *)
Module ProxyRotation.
Import ProxyManager.

(** The keys of the dict that [{url: ProxyInfo(url=url) for url in proxies}]
    builds, in the order of their first insertion. *)
Definition dict_keys (urls : list string) : list string :=
  fold_left (fun acc u => if bool_decide (u ∈ acc) then acc else acc ++ [u])
            urls [].

(** The manager with what [get_proxy] uses besides the records: the order
    of the dict, the strategy and the round-robin counter. *)
Record t := mk
  { pool : ProxyManager.t;
    order : list string;
    rotation_strategy : string;
    _current_index : Z }.

Definition __init__ (urls : list string) (rotation_strategy : string)
    (max_failures : Z) (now : Q) : t :=
  {| pool := ProxyManager.__init__ urls max_failures now;
     order := dict_keys urls;
     rotation_strategy := rotation_strategy;
     _current_index := 0 |}.

(** [self.proxies.values()]. *)
Definition values (self : t) : list ProxyInfo :=
  omap (fun u => proxies (pool self) !! u) (order self).

(** The list [healthy_proxies] of [get_proxy]. *)
Definition healthy_proxies (self : t) : list ProxyInfo :=
  List.filter (fun info => match health info with FAILED => false | _ => true end)
              (values self).

(** [random.choice(seq)] on a list that is not empty; [pick] is the index
    that the generator draws. *)
Definition choice (seq : list ProxyInfo) (pick : nat) : option ProxyInfo :=
  seq !! (pick mod length seq)%nat.

(** [itertools.accumulate(weights)]. *)
Fixpoint accumulate (sum : Q) (weights : list Q) : list Q :=
  match weights with
  | [] => []
  | w :: weights' => (sum + w)%Q :: accumulate (sum + w)%Q weights'
  end.

(** [bisect.bisect(cum_weights, x, 0, hi)] on the first [hi] sums, which
    are in increasing order: the number of sums that are at most [x]. *)
Fixpoint bisect (cum_weights : list Q) (x : Q) (hi : nat) : nat :=
  match hi, cum_weights with
  | S hi', c :: rest => if Qle_bool c x then S (bisect rest x hi') else 0%nat
  | _, _ => 0%nat
  end.

(** What a selection ends in. *)
Inductive selection :=
| Selected (proxy_url : string)     (* [return proxy.url] *)
| NoProxy                           (* [return None] *)
| ValueError                        (* raised by [random.choices] *)
| IndexError.                       (* a list index out of range *)

(** [random.choices(population, weights)[0]]; [u] is the number of the
    unit interval that the generator draws.  The total of the weights must
    be positive. *)
Definition choices (population : list ProxyInfo) (weights : list Q) (u : Q)
  : selection + ProxyInfo :=
  let cum_weights := accumulate 0 weights in
  let total := List.last cum_weights 0%Q in
  if Qle_bool total 0 then inl ValueError
  else
    match population !! bisect cum_weights (u * total)%Q (length population - 1) with
    | Some info => inr info
    | None => inl IndexError
    end.

(** [_round_robin_select(proxies)]: the selected record and the counter
    afterwards. *)
Definition _round_robin_select (self : t) (proxies : list ProxyInfo)
  : option ProxyInfo * t :=
  (proxies !! Z.to_nat (_current_index self mod Z.of_nat (length proxies)),
   {| pool := pool self; order := order self;
      rotation_strategy := rotation_strategy self;
      _current_index := _current_index self + 1 |}).

(** [_health_based_select(proxies)]. *)
Definition _health_based_select (proxies : list ProxyInfo) (pick : nat) (u : Q)
  : selection + ProxyInfo :=
  let scores := map score proxies in
  let total_score := fold_left Qplus scores 0%Q in
  if Qeq_bool total_score 0 then
    match choice proxies pick with
    | Some info => inr info
    | None => inl IndexError
    end
  else
    let weights := map (fun s => (s / total_score)%Q) scores in
    choices proxies weights u.

(** [get_proxy()]; [pick] and [u] are the draws of the random generator. *)
Definition get_proxy (self : t) (pick : nat) (u : Q) : selection * t :=
  let healthy := healthy_proxies self in
  match healthy with
  | [] => (NoProxy, self)
  | first :: _ =>
      if String.eqb (rotation_strategy self) "round_robin" then
        match _round_robin_select self healthy with
        | (Some info, self') => (Selected (url info), self')
        | (None, self') => (IndexError, self')
        end
      else if String.eqb (rotation_strategy self) "random" then
        match choice healthy pick with
        | Some info => (Selected (url info), self)
        | None => (IndexError, self)
        end
      else if String.eqb (rotation_strategy self) "health_based" then
        match _health_based_select healthy pick u with
        | inr info => (Selected (url info), self)
        | inl err => (err, self)
        end
      else (Selected (url first), self)
  end.

(** [n] calls of [get_proxy], one after the other, on a pool that does not
    change in between. *)
Fixpoint get_proxies (self : t) (n : nat) (pick : nat) (u : Q) : list selection :=
  match n with
  | O => []
  | S n' =>
      let '(s, self') := get_proxy self pick u in
      s :: get_proxies self' n' pick u
  end.

(** The dict that [get_stats] returns, without the list of the records. *)
Record stats := mkStats
  { total_proxies : Z;
    healthy : Z;
    degraded : Z;
    failed : Z }.

Definition count_health (h : ProxyHealth) (l : list ProxyInfo) : Z :=
  Z.of_nat (length (List.filter
                      (fun p => match health p, h with
                                | HEALTHY, HEALTHY | DEGRADED, DEGRADED
                                | FAILED, FAILED => true
                                | _, _ => false
                                end) l)).

(** [get_stats()]. *)
Definition get_stats (self : t) : stats :=
  {| total_proxies := Z.of_nat (size (proxies (pool self)));
     healthy := count_health HEALTHY (values self);
     degraded := count_health DEGRADED (values self);
     failed := count_health FAILED (values self) |}.

(** The manager after reports and probes. *)
Definition run (self : t) (evs : list event) : t :=
  {| pool := ProxyManager.run (pool self) evs;
     order := order self;
     rotation_strategy := rotation_strategy self;
     _current_index := _current_index self |}.

(** What the counters of a record satisfy. *)
Definition counters_ok (p : ProxyInfo) : Prop :=
  0 <= success_count p /\ 0 <= failure_count p /\
  total_requests p = success_count p + failure_count p.

(** Every recorded response time is between 0 and [bound]. *)
Definition times_within (bound : Q) (evs : list event) : Prop :=
  Forall (fun ev => match recorded_time ev with
                    | Some rt => (0 <= rt /\ rt <= bound)%Q
                    | None => True
                    end) evs.

End ProxyRotation.

(** ** proxy_manager.py : runs of [UserAgentManager] *)
Module UserAgentRuns.
Import UserAgentManager.

(** [n] calls of [get], one after the other; [pick] is the draw of the
    random generator. *)
Fixpoint gets (self : t) (n : nat) (pick : nat) : list string :=
  match n with
  | O => []
  | S n' => fst (get self pick) :: gets (snd (get self pick)) n' pick
  end.

(** The manager after the calls [add_user_agent(ua)] for the [uas]. *)
Definition add_all (self : t) (uas : list string) : t :=
  fold_left add_user_agent uas self.

End UserAgentRuns.

(* ================================================================= *)
(** * Theorems *)

Section RateLimiterFacts.
Import RateLimiter.

Lemma refill_within_capacity self now :
  (0 <= rate self)%Q -> (0 <= burst self)%Z ->
  (last_update self <= now)%Q ->
  (0 <= tokens self)%Q ->
  within_capacity (refill self now).
Proof.
  intros Hr Hb Ht H0. unfold within_capacity, refill; simpl.
  split; [| apply Q.le_min_l].
  apply Q.min_glb.
  - change 0%Q with (inject_Z 0). rewrite <- Zle_Qle. exact Hb.
  - assert (0 <= (now - last_update self) * rate self)%Q.
    { apply Qmult_le_0_compat; lra. }
    lra.
Qed.

Lemma acquire_turn_frame self n now :
  rate (fst (acquire_turn self n now)) = rate self /\
  burst (fst (acquire_turn self n now)) = burst self /\
  last_update (fst (acquire_turn self n now)) = now.
Proof.
  unfold acquire_turn.
  destruct (Qle_bool _ _); [| destruct (Qeq_bool _ _)]; simpl; auto.
Qed.

Lemma acquire_turn_within_capacity self n now :
  (0 <= rate self)%Q -> (0 <= burst self)%Z -> (0 <= n)%Z ->
  (last_update self <= now)%Q ->
  (0 <= tokens self)%Q ->
  within_capacity (fst (acquire_turn self n now)).
Proof.
  intros Hr Hb Hn Ht H0.
  destruct (refill_within_capacity self now Hr Hb Ht H0) as [Hlo Hhi].
  unfold acquire_turn.
  destruct (Qle_bool _ _) eqn:Hle; [| destruct (Qeq_bool _ _)]; simpl;
    try (split; assumption).
  apply Qle_bool_iff in Hle.
  assert (0 <= inject_Z n)%Q by (change 0%Q with (inject_Z 0); now rewrite <- Zle_Qle).
  unfold within_capacity; simpl. simpl in Hle, Hlo, Hhi. split; lra.
Qed.

Lemma observe_within_capacity clock : forall self calls,
  (0 <= rate self)%Q -> (0 <= burst self)%Z ->
  Forall (fun n => 0 <= n)%Z calls ->
  nondecreasing (last_update self) clock ->
  (0 <= tokens self)%Q ->
  Forall within_capacity (observe self calls clock).
Proof.
  induction clock as [| now clock IH]; intros self calls Hr Hb Hn Hc H0; simpl.
  - constructor.
  - destruct calls as [| n calls]; [constructor |].
    destruct Hc as [Hle Hc].
    pose proof (Forall_inv Hn) as Hn0. pose proof (Forall_inv_tail Hn) as Hn'.
    pose proof (acquire_turn_frame self n now) as (Fr & Fb & Fl).
    pose proof (acquire_turn_within_capacity self n now Hr Hb Hn0 Hle H0) as Hw.
    pose proof (refill_within_capacity self now Hr Hb Hle H0) as Hrf.
    destruct (acquire_turn self n now) as [self' r]; simpl in *.
    assert (Hrec : forall cs, Forall (fun n => 0 <= n)%Z cs ->
                       Forall within_capacity (observe self' cs clock)).
    { intros cs Hcs. apply IH; try assumption.
      - now rewrite Fr.
      - now rewrite Fb.
      - now rewrite Fl.
      - apply Hw. }
    destruct r.
    + constructor; [exact Hrf |]. constructor; [exact Hw |]. now apply Hrec.
    + constructor; [exact Hrf |]. now apply Hrec.
    + constructor; [exact Hrf |]. constructor; [exact Hw |]. now apply Hrec.
Qed.

Lemma last_cons_default (a d : t) (l : list t) :
  List.last (a :: l) d = List.last l a.
Proof.
  revert a d. induction l as [| b l IH]; intros a d; [reflexivity |].
  change (List.last (b :: l) d = List.last (b :: l) a).
  now rewrite !IH.
Qed.

Lemma serve_no_clock calls : forall self, serve self calls [] = self.
Proof. induction calls as [| n calls IH]; intros self; simpl; auto. Qed.

Lemma acquire_turn_sleep self n now self' w :
  acquire_turn self n now = (self', Sleep w) -> self' = refill self now.
Proof.
  unfold acquire_turn.
  destruct (Qle_bool _ _); [| destruct (Qeq_bool _ _)]; congruence.
Qed.

(** The observation points are those of the loop of [acquire]: the last
    of them is the bucket that serving the callers with [acquire] leaves. *)
Lemma serve_is_last_observation clock : forall self calls,
  List.last (observe self calls clock) self = serve self calls clock.
Proof.
  induction clock as [| now clock IH]; intros self calls.
  - simpl. now rewrite serve_no_clock.
  - destruct calls as [| n calls]; [reflexivity |].
    cbn [observe serve acquire].
    destruct (acquire_turn self n now) as [self' r] eqn:Ht.
    destruct r as [| w |].
    + rewrite !last_cons_default. apply IH.
    + apply acquire_turn_sleep in Ht as Hs. rewrite last_cons_default, <- Hs.
      rewrite IH. reflexivity.
    + rewrite !last_cons_default. apply IH.
Qed.

(** C3. Token bucket invariant: for a bucket built by [__init__] with a
    non-negative rate and capacity, any callers [calls] with [n >= 0] served
    in any order and clock readings that never go back, the token count
    satisfies [0 <= tokens <= capacity] at construction, after every lazy
    refill and after every deduction; and the refill is
    [tokens = min(capacity, tokens + elapsed * rate)]. *)
Theorem token_bucket_within_capacity
  (requests_per_second : Q) (capacity : Z) (t0 : Q)
  (calls : list Z) (clock : list Q) :
  (0 <= requests_per_second)%Q -> (0 <= capacity)%Z ->
  Forall (fun n => 0 <= n)%Z calls ->
  nondecreasing t0 clock ->
  let b := __init__ requests_per_second capacity t0 in
  Forall within_capacity (b :: observe b calls clock) /\
  (forall self now,
      tokens (refill self now) =
      Qmin (inject_Z (burst self))
           (tokens self + (now - last_update self) * rate self)%Q).
Proof.
  intros Hr Hb Hn Hc b. split; [| reflexivity].
  assert (Hb0 : (0 <= tokens b)%Q).
  { simpl. change 0%Q with (inject_Z 0). now rewrite <- Zle_Qle. }
  constructor.
  - split; [exact Hb0 | simpl; lra].
  - apply observe_within_capacity; auto.
Qed.

Lemma token_bucket_within_capacity_witness :
  Forall within_capacity
    (__init__ (2#1) 5 0 :: observe (__init__ (2#1) 5 0) [3; 4; 1] [0; 1#2; 1; 1; 3]%Q).
Proof.
  apply (token_bucket_within_capacity (2#1) 5 0 [3; 4; 1] [0; 1#2; 1; 1; 3]%Q).
  - vm_compute; discriminate.
  - lia.
  - repeat constructor; lia.
  - simpl; repeat split; vm_compute; discriminate.
Defined.

End RateLimiterFacts.

Section RetryHandlerFacts.
Import RetryHandler.

Lemma clamped_delay_nonneg (config : RetryConfig) (attempt : Z) :
  (0 <= base_delay config)%Q -> (0 <= exponential_base config)%Q ->
  (0 <= max_delay config)%Q ->
  (0 <= Qmin (max_delay config)
             (base_delay config * exponential_base config ^ attempt))%Q.
Proof.
  intros Hb He Hm. apply Q.min_glb; [exact Hm |].
  apply Qmult_le_0_compat; [exact Hb |]. now apply Qpower_0_le.
Qed.

(** [_calculate_delay] returns exactly when the power is in the range of a
    double, and then it returns the clamped product, with the jitter on
    top when the flag is set. *)
Lemma calculate_delay_in_range (config : RetryConfig) (i : Z) (u : Q) :
  float_pow (exponential_base config) i <> None ->
  _calculate_delay config i u =
    Some (let delay := Qmin (base_delay config * exponential_base config ^ i)
                            (max_delay config) in
          if jitter config then delay + uniform 0 (delay * (1 # 10)) u
          else delay)%Q.
Proof.
  unfold _calculate_delay, float_pow. intros H.
  destruct (Qle_bool float_overflow (Qabs (exponential_base config ^ i)));
    [congruence |].
  destruct (jitter config); reflexivity.
Qed.

Lemma calculate_delay_out_of_range (config : RetryConfig) (i : Z) (u : Q) :
  float_pow (exponential_base config) i = None ->
  _calculate_delay config i u = None.
Proof. unfold _calculate_delay. now intros ->. Qed.

(** The powers of two below [2^1024] are in the range of a double. *)
Lemma float_pow_2_in_range (i : nat) :
  (i < 1024)%nat -> float_pow 2 (Z.of_nat i) <> None.
Proof.
  intros Hi.
  assert (Hall : forallb (fun k : nat =>
                   match float_pow 2 (Z.of_nat k) with
                   | Some _ => true
                   | None => false
                   end) (seq 0 1024) = true) by (vm_compute; reflexivity).
  rewrite forallb_forall in Hall.
  specialize (Hall i). intros Hn. rewrite Hn in Hall.
  assert (Hin : In i (seq 0 1024)) by (apply in_seq; lia).
  specialize (Hall Hin). discriminate.
Qed.

(** The delay formula, where the power is in range: for a configuration
    with non-negative delays and base, the delay of attempt [i] is
    [min(max_delay, base_delay * exponential_base^i)], plus, when the
    jitter flag is set, an amount [j] of [[0, 0.1 * delay]] (the draw
    [random.uniform(0, delay * 0.1)], which is [0.1 * delay * u] for the
    random number [u] of the unit interval). *)
Lemma retry_delay_formula_in_range (config : RetryConfig) (i : Z) (u : Q) :
  (0 <= u <= 1)%Q ->
  (0 <= base_delay config)%Q -> (0 <= exponential_base config)%Q ->
  (0 <= max_delay config)%Q ->
  float_pow (exponential_base config) i <> None ->
  let delay := Qmin (max_delay config)
                    (base_delay config * exponential_base config ^ i)%Q in
  exists j d : Q,
    _calculate_delay config i u = Some d /\
    (j == (1 # 10) * delay * u)%Q /\
    (0 <= j <= (1 # 10) * delay)%Q /\
    (d == delay + (if jitter config then j else 0))%Q.
Proof.
  intros [Hu0 Hu1] Hb He Hm Hp delay.
  pose proof (clamped_delay_nonneg config i Hb He Hm) as Hd. fold delay in Hd.
  exists ((1 # 10) * delay * u)%Q. eexists.
  split; [apply calculate_delay_in_range; exact Hp |].
  split; [reflexivity |]. split.
  - split.
    + apply Qmult_le_0_compat; [lra | exact Hu0].
    + nra.
  - cbv zeta. unfold uniform.
    assert (Hc : (Qmin (base_delay config * exponential_base config ^ i)
                       (max_delay config) == delay)%Q) by apply Q.min_comm.
    destruct (jitter config); rewrite Hc; ring.
Qed.

(** C9 (the code departs from it). With the default configuration
    ([base_delay = 1], [max_delay = 60], [exponential_base = 2]) and the
    attempt index 1024, the formula of the specification gives
    [min(60, 1 * 2^1024) = 60]; [_calculate_delay] returns no delay: the
    power [2.0 ** 1024] raises [OverflowError] before the minimum with
    [max_delay] is taken.  The index before, 1023, still gives 60 (for the
    random draw 0, which adds no jitter). *)
Theorem calculate_delay_overflows (u : Q) :
  (Qmin (max_delay default_config)
        (base_delay default_config * exponential_base default_config ^ 1024)
   == 60)%Q /\
  _calculate_delay default_config 1024 u = None /\
  option_map Qred (_calculate_delay default_config 1023 0) = Some 60%Q.
Proof. repeat split; vm_compute; reflexivity. Qed.

Section ExecuteFacts.
Context {R E : Type}.
Variable status_code : R -> option Z.
Variable is_Exception : E -> bool.

Local Abbreviation attempts := (RetryHandler.attempts status_code is_Exception).
Local Abbreviation execute := (RetryHandler.execute status_code is_Exception).
Local Abbreviation retryable := (RetryHandler.retryable status_code).
Local Abbreviation fails := (RetryHandler.fails status_code is_Exception).

(** The loop on an operation that always fails, when the powers of all
    the delays are in range: it runs to the attempt whose index is
    [max_retries] and raises there. *)
Lemma attempts_always_failing (config : RetryConfig) func u fuel :
  forall attempt last slept,
    (forall i, fails config (func i)) ->
    (forall i : nat, Z.of_nat i < max_retries config ->
       float_pow (exponential_base config) (Z.of_nat i) <> None) ->
    (0 < fuel)%nat ->
    Z.of_nat attempt + Z.of_nat fuel = max_retries config + 1 ->
    let r := attempts config func u fuel attempt last slept in
    invocations r = Z.to_nat (max_retries config + 1) /\
    result r = inr (failure_of (func (Z.to_nat (max_retries config)))).
Proof.
  induction fuel as [| fuel IH]; intros attempt last slept Hf Hp Hpos Hsum; [lia |].
  cbn [RetryHandler.attempts].
  assert (Hstep : forall e, e = failure_of (func attempt) ->
    let r := if Z.of_nat attempt =? max_retries config
             then {| result := inr e; invocations := S attempt; sleeps := slept |}
             else match _calculate_delay config (Z.of_nat attempt) (u attempt) with
                  | Some delay =>
                      attempts config func u fuel (S attempt) (Some e)
                        (slept ++ [delay])
                  | None =>
                      {| result := inr OverflowError; invocations := S attempt;
                         sleeps := slept |}
                  end in
    invocations r = Z.to_nat (max_retries config + 1) /\
    result r = inr (failure_of (func (Z.to_nat (max_retries config))))).
  { intros e He. destruct (Z.eqb_spec (Z.of_nat attempt) (max_retries config)) as [Heq | Hne].
    - simpl. split; [lia |]. rewrite <- Heq, Nat2Z.id. now rewrite He.
    - rewrite calculate_delay_in_range by (apply Hp; lia).
      apply IH; [exact Hf | exact Hp | lia | lia]. }
  specialize (Hf attempt) as Hfa. unfold RetryHandler.fails in Hfa.
  destruct (func attempt) as [r | e] eqn:Ho; rewrite Hfa.
  - apply Hstep. reflexivity.
  - apply Hstep. reflexivity.
Qed.

(** Exhausted retries, where no delay overflows: with
    [max_retries = k >= 0], powers [exponential_base ** i] in the range of
    a double for [i < k], and an operation that fails on every invocation,
    [execute] invokes the operation exactly [k + 1] times and raises the
    failure of the last invocation. *)
Lemma execute_exhausts_retries_in_range (config : RetryConfig)
    (func : nat -> outcome) (u : nat -> Q) :
  0 <= max_retries config ->
  (forall i : nat, Z.of_nat i < max_retries config ->
     float_pow (exponential_base config) (Z.of_nat i) <> None) ->
  (forall i, fails config (func i)) ->
  invocations (execute config func u) = Z.to_nat (max_retries config + 1) /\
  result (execute config func u) =
    inr (failure_of (func (Z.to_nat (max_retries config)))).
Proof.
  intros Hk Hp Hf. unfold RetryHandler.execute.
  apply attempts_always_failing; [exact Hf | exact Hp | lia | lia].
Qed.

(** The loop on an operation that always fails, when the power of the
    delay after attempt [j] is out of range and [j < max_retries]: the
    handler of attempt [j] raises [OverflowError], and the loop ends
    there. *)
Lemma attempts_overflow (config : RetryConfig) func u (j : nat) fuel :
  forall attempt last slept,
    (forall i, fails config (func i)) ->
    (forall i : nat, (i < j)%nat ->
       float_pow (exponential_base config) (Z.of_nat i) <> None) ->
    float_pow (exponential_base config) (Z.of_nat j) = None ->
    (attempt <= j)%nat ->
    Z.of_nat j < max_retries config ->
    Z.of_nat attempt + Z.of_nat fuel = max_retries config + 1 ->
    let r := attempts config func u fuel attempt last slept in
    invocations r = S j /\ result r = inr OverflowError.
Proof.
  induction fuel as [| fuel IH]; intros attempt last slept Hf Hp Hj Hle Hlt Hsum;
    [lia |].
  cbn [RetryHandler.attempts].
  assert (Hk : (Z.of_nat attempt =? max_retries config) = false).
  { apply Z.eqb_neq. lia. }
  assert (Hstep : forall e : @error R E,
    let r := match _calculate_delay config (Z.of_nat attempt) (u attempt) with
             | Some delay =>
                 attempts config func u fuel (S attempt) (Some e)
                   (slept ++ [delay])
             | None =>
                 {| result := inr OverflowError; invocations := S attempt;
                    sleeps := slept |}
             end in
    invocations r = S j /\ result r = inr OverflowError).
  { intros e. destruct (Nat.eq_dec attempt j) as [-> | Hne].
    - rewrite calculate_delay_out_of_range by exact Hj. split; reflexivity.
    - rewrite calculate_delay_in_range by (apply Hp; lia).
      apply IH; auto; lia. }
  specialize (Hf attempt) as Hfa. unfold RetryHandler.fails in Hfa.
  destruct (func attempt) as [r | e]; rewrite Hfa, Hk; apply Hstep.
Qed.

(** C5 (the code departs from it). With [max_retries = 1030] and the
    other fields at their defaults, and an operation that fails on every
    invocation, the specification gives 1031 invocations and the failure
    of the last one.  [execute] invokes the operation 1025 times and raises
    [OverflowError]: after the failure of attempt 1024 the handler computes
    [_calculate_delay(1024)], whose power [2.0 ** 1024] raises, and the
    failure of the operation is not what the caller gets. *)
Theorem execute_overflows_before_exhaustion (func : nat -> outcome)
    (u : nat -> Q) :
  (forall i, fails retries_1030 (func i)) ->
  invocations (execute retries_1030 func u) = 1025%nat /\
  result (execute retries_1030 func u) = inr OverflowError.
Proof.
  intros Hf. unfold RetryHandler.execute.
  apply attempts_overflow; try exact Hf.
  - intros i Hi. apply float_pow_2_in_range. exact Hi.
  - vm_compute. reflexivity.
  - lia.
  - simpl. lia.
  - simpl. lia.
Qed.

Lemma attempts_never_returns_retryable (config : RetryConfig) func u fuel :
  forall attempt last slept r,
    result (attempts config func u fuel attempt last slept) = inl r ->
    retryable config r = false.
Proof.
  induction fuel as [| fuel IH]; intros attempt last slept r; [discriminate |].
  cbn [RetryHandler.attempts].
  destruct (func attempt) as [r0 | e].
  - destruct (retryable config r0) eqn:Hr.
    + destruct (Z.of_nat attempt =? max_retries config); [discriminate |].
      destruct (_calculate_delay config (Z.of_nat attempt) (u attempt));
        [apply IH | discriminate].
    + simpl. intros [= <-]. exact Hr.
  - destruct (is_Exception e); [| discriminate].
    destruct (Z.of_nat attempt =? max_retries config); [discriminate |].
    destruct (_calculate_delay config (Z.of_nat attempt) (u attempt));
      [apply IH | discriminate].
Qed.

(** C10. [execute] never returns a result whose status code is in the
    retryable set: whatever the operation does and whatever the
    configuration, a result that [execute] returns is not retryable. *)
Theorem execute_never_returns_retryable (config : RetryConfig)
    (func : nat -> outcome) (u : nat -> Q) (r : R) :
  result (execute config func u) = inl r ->
  retryable config r = false.
Proof. apply attempts_never_returns_retryable. Qed.

End ExecuteFacts.

Lemma execute_overflows_before_exhaustion_witness :
  invocations (execute Some (fun _ : unit => true)
                 retries_1030 always_503 (fun _ => 1 # 2)) = 1025%nat /\
  result (execute Some (fun _ : unit => true)
            retries_1030 always_503 (fun _ => 1 # 2)) = inr OverflowError.
Proof.
  apply (execute_overflows_before_exhaustion Some (fun _ : unit => true)
           always_503 (fun _ => 1 # 2)).
  intros i. reflexivity.
Defined.

Lemma execute_never_returns_retryable_witness :
  retryable Some default_config 200 = false.
Proof.
  apply (execute_never_returns_retryable Some (fun _ : unit => true)
           default_config flaky_then_200 (fun _ => 0%Q) 200).
  reflexivity.
Defined.

(** The spec's example: [max_retries = 2], [base_delay = 1],
    [exponential_base = 2], no jitter: three invocations, the failure of
    the third raised, sleeps of 1 and 2 seconds. *)
Example execute_three_invocations :
  let r := execute Some (fun _ : unit => true)
             (mkRetryConfig 2 1 60 2 false [429; 500; 502; 503; 504])
             always_503 (fun _ => 0%Q) in
  invocations r = 3%nat /\ result r = inr (HTTPStatusError 503) /\
  map Qred (sleeps r) = [1%Q; 2%Q].
Proof. repeat split; reflexivity. Qed.

End RetryHandlerFacts.

Section CircuitBreakerFacts.
Import CircuitBreaker.

(** C1 (the code departs from it). A breaker with threshold 1 and a recovery
    timeout of 10 seconds: a failure at 0 opens it; the success at 20 is the
    first of the half-open probe; the failure at 21 reopens it; the single
    success at 40 closes it, because [_success_count] still holds the
    success recorded before the failure. *)
Theorem half_open_closes_after_one_success :
  states (__init__ 1 10)
         [(0%Q, ko, 0%Q); (20%Q, ok, 20%Q); (21%Q, ko, 21%Q); (40%Q, ok, 40%Q)]
  = [OPEN; HALF_OPEN; OPEN; CLOSED].
Proof. reflexivity. Qed.

(** Any recorded failure while half-open reopens the breaker. *)
Lemma half_open_failure_reopens self now :
  _state self = HALF_OPEN -> _state (_on_failure self now) = OPEN.
Proof. intros H. unfold _on_failure. simpl. now rewrite H. Qed.

(** A success closes a half-open breaker exactly when the counter of
    successes, which no failure resets, reaches two. *)
Lemma half_open_success_closes self :
  _state self = HALF_OPEN ->
  (_state (_on_success self) = CLOSED <-> 1 <= _success_count self).
Proof.
  intros H. unfold _on_success. simpl. rewrite H.
  destruct (Z.leb_spec 2 (_success_count self + 1)); simpl.
  - split; [lia | reflexivity].
  - split; [discriminate | lia].
Qed.

Section CallFacts.
Context {R E : Type}.
Variable expected : E -> bool.

(** C6. While the breaker is open and less than [recovery_timeout] has
    elapsed since the last recorded failure, [call] raises
    [CircuitBreakerError] without invoking the operation (and leaves the
    breaker as it is).  In the closed and half-open states it invokes the
    operation, and the call ends as the operation does: when the operation
    returns [r], [call] returns [r] and the breaker has recorded a success;
    when it raises [e], [call] raises [e], and the breaker has recorded a
    failure if [e] is an expected exception and is unchanged if not. *)
Theorem call_open_rejects (self : t) (now : Q) (func : @outcome R E) (later : Q) :
  (_state self = OPEN ->
   (forall last, _last_failure_time self = Some last ->
                 (now - last < recovery_timeout self)%Q) ->
   call expected self now func later =
     {| breaker := self; invoked := false; result := inr CircuitBreakerError |})
  /\
  (_state self = CLOSED \/ _state self = HALF_OPEN ->
   call expected self now func later =
     match func with
     | Return r =>
         {| breaker := _on_success self; invoked := true; result := inl r |}
     | Raise e =>
         {| breaker := if expected e then _on_failure self later else self;
            invoked := true; result := inr (Raised e) |}
     end).
Proof.
  split.
  - intros Hs Hlt. unfold call. rewrite Hs.
    unfold _should_attempt_reset.
    destruct (_last_failure_time self) as [last |]; [| reflexivity].
    specialize (Hlt last eq_refl).
    destruct (Qle_bool _ _) eqn:Hle; [| reflexivity].
    apply Qle_bool_iff in Hle. lra.
  - intros [Hs | Hs]; unfold call; rewrite Hs;
      destruct func as [r | e]; [| destruct (expected e) | | destruct (expected e)];
      reflexivity.
Qed.

End CallFacts.

Lemma call_open_rejects_witness :
  let self := breaker (call (fun _ : unit => true) (__init__ 1 10) 0 ko 0) in
  call (fun _ : unit => true) self 5 ok 5 =
    {| breaker := self; invoked := false; result := inr CircuitBreakerError |}
  /\
  call (fun _ : unit => true) (__init__ 2 10) 0 ko 1 =
    {| breaker := _on_failure (__init__ 2 10) 1; invoked := true;
       result := inr (Raised tt) |}.
Proof.
  intros self. split.
  - apply (call_open_rejects (fun _ : unit => true) self 5 ok 5).
    + reflexivity.
    + intros last [= <-]. vm_compute. reflexivity.
  - apply (call_open_rejects (fun _ : unit => true) (__init__ 2 10) 0 ko 1).
    left. reflexivity.
Defined.

End CircuitBreakerFacts.

Section ProxyManagerFacts.
Import ProxyManager.

Lemma step_max_failures self ev : max_failures (step self ev) = max_failures self.
Proof.
  destruct ev as [u rt | u | u [rt |]]; simpl;
    unfold record_success, record_failure;
    destruct (proxies self !! u); reflexivity.
Qed.

Lemma step_lookup self ev (u : string) :
  proxies (step self ev) !! u =
  (fun p => on_record (max_failures self) u p ev) <$> (proxies self !! u).
Proof.
  destruct ev as [v rt | v | v [rt |]]; simpl;
    unfold record_success, record_failure;
    destruct (proxies self !! v) as [q |] eqn:Hv; simpl;
    destruct (decide (v = u)) as [-> | Hne];
    rewrite ?lookup_insert_eq, ?Hv; simpl; try reflexivity;
    rewrite ?lookup_insert_ne by exact Hne;
    destruct (proxies self !! u); reflexivity.
Qed.

Lemma run_max_failures evs : forall self,
  max_failures (run self evs) = max_failures self.
Proof.
  unfold run. induction evs as [| ev evs IH]; intros self; [reflexivity |].
  simpl. rewrite IH. apply step_max_failures.
Qed.

Lemma run_lookup evs : forall self (u : string),
  proxies (run self evs) !! u =
  (fun p => fold_left (on_record (max_failures self) u) evs p)
    <$> (proxies self !! u).
Proof.
  unfold run. induction evs as [| ev evs IH]; intros self u; simpl.
  - destruct (proxies self !! u); reflexivity.
  - rewrite IH, step_lookup, step_max_failures.
    destruct (proxies self !! u); reflexivity.
Qed.

Lemma init_lookup urls mf t0 (u : string) p :
  proxies (__init__ urls mf t0) !! u = Some p -> p = new_proxy u t0.
Proof.
  unfold __init__; simpl.
  assert (H : forall m : gmap string ProxyInfo,
             (forall v q, m !! v = Some q -> q = new_proxy v t0) ->
             forall v q,
               fold_left (fun m u => <[u := new_proxy u t0]> m) urls m !! v = Some q ->
               q = new_proxy v t0).
  { induction urls as [| w urls IH]; intros m Hm v q; simpl; [apply Hm |].
    apply IH. intros v' q'. destruct (decide (w = v')) as [-> | Hne].
    - rewrite lookup_insert_eq. congruence.
    - rewrite lookup_insert_ne by exact Hne. apply Hm. }
  apply H. intros v q. rewrite lookup_empty. discriminate.
Qed.

Lemma on_record_failed_by_count mf u p ev :
  failed_by_count mf p -> failed_by_count mf (on_record mf u p ev).
Proof.
  unfold failed_by_count. intros Hp.
  destruct ev as [v rt | v | v [rt |]]; simpl;
    destruct (decide (v = u)); try exact Hp; simpl.
  - destruct (health p); try discriminate. exact Hp.
  - destruct (Z.leb_spec mf (failure_count p + 1)); [intros _; assumption |].
    destruct (Qlt_bool _ _); [discriminate |]. intros Hh. specialize (Hp Hh). lia.
  - destruct (health p); try discriminate. exact Hp.
  - destruct (Z.leb_spec mf (failure_count p + 1)); [intros _; assumption |].
    destruct (Qlt_bool _ _); [discriminate |]. intros Hh. specialize (Hp Hh). lia.
Qed.

Lemma on_record_stays_failed mf u p ev :
  health p = FAILED -> mf <= failure_count p ->
  health (on_record mf u p ev) = FAILED /\
  mf <= failure_count (on_record mf u p ev).
Proof.
  intros Hh Hc.
  destruct ev as [v rt | v | v [rt |]]; simpl;
    destruct (decide (v = u)); simpl; rewrite ?Hh; auto;
    destruct (Z.leb_spec mf (failure_count p + 1)); split; auto; lia.
Qed.

Lemma fold_failed_by_count mf u evs : forall p,
  failed_by_count mf p ->
  failed_by_count mf (fold_left (on_record mf u) evs p).
Proof.
  induction evs as [| ev evs IH]; intros p Hp; simpl; [exact Hp |].
  apply IH. now apply on_record_failed_by_count.
Qed.

Lemma fold_stays_failed mf u evs : forall p,
  health p = FAILED -> mf <= failure_count p ->
  health (fold_left (on_record mf u) evs p) = FAILED.
Proof.
  induction evs as [| ev evs IH]; intros p Hh Hc; simpl; [exact Hh |].
  destruct (on_record_stays_failed mf u p ev Hh Hc). now apply IH.
Qed.

(** C7. Failed is reached by the failure count only, and is sticky: in a
    pool built by [__init__] and driven by any reports and probes, a record
    whose health is [FAILED] has a failure count of at least
    [max_failures]; a step turns a record that was not failed into a failed
    one only when it records a failure of that proxy and the count reaches
    [max_failures]; and a failed record stays failed through every later
    event, the successes reported by callers and by the health-check probe
    included. *)
Theorem failed_only_by_count_and_sticky
    (urls : list string) (mf : Z) (t0 : Q) (evs : list event) :
  let pool := run (__init__ urls mf t0) evs in
  (forall (u : string) p,
      proxies pool !! u = Some p -> health p = FAILED ->
      mf <= failure_count p) /\
  (forall ev (u : string) p p',
      proxies pool !! u = Some p -> proxies (step pool ev) !! u = Some p' ->
      health p <> FAILED -> health p' = FAILED ->
      (ev = Failure u \/ ev = Probe u None) /\
      failure_count p' = failure_count p + 1 /\
      mf <= failure_count p') /\
  (forall later (u : string) p,
      proxies pool !! u = Some p -> health p = FAILED ->
      exists p', proxies (run pool later) !! u = Some p' /\
                 health p' = FAILED).
Proof.
  intros pool.
  assert (Hmf : max_failures pool = mf).
  { unfold pool. now rewrite run_max_failures. }
  assert (Hinv : forall (u : string) p,
             proxies pool !! u = Some p -> failed_by_count mf p).
  { intros u p. unfold pool. rewrite run_lookup.
    destruct (proxies (__init__ urls mf t0) !! u) as [q |] eqn:Hq; [| discriminate].
    simpl. intros [= <-]. apply fold_failed_by_count.
    apply init_lookup in Hq. subst q. intros Hh. discriminate. }
  split; [| split].
  - intros u p Hp. now apply (Hinv u p).
  - intros ev u p p' Hp Hp' Hn Hf.
    rewrite step_lookup, Hp, Hmf in Hp'. simpl in Hp'.
    injection Hp' as <-.
    destruct ev as [v rt | v | v [rt |]]; simpl in *;
      destruct (decide (v = u)) as [-> | Hne]; try contradiction; simpl in *.
    + destruct (health p); congruence.
    + split; [now left |]. split; [reflexivity |].
      destruct (Z.leb_spec mf (failure_count p + 1)); [assumption |].
      destruct (Qlt_bool _ _); [discriminate | contradiction].
    + destruct (health p); congruence.
    + split; [now right |]. split; [reflexivity |].
      destruct (Z.leb_spec mf (failure_count p + 1)); [assumption |].
      destruct (Qlt_bool _ _); [discriminate | contradiction].
  - intros later u p Hp Hh. rewrite run_lookup, Hp, Hmf. simpl.
    eexists; split; [reflexivity |].
    apply fold_stays_failed; [exact Hh |]. now apply (Hinv u p).
Qed.

Lemma on_record_avg_nonneg mf u p ev :
  (0 <= avg_response_time p)%Q ->
  match recorded_time ev with Some rt => (0 <= rt)%Q | None => True end ->
  (0 <= avg_response_time (on_record mf u p ev))%Q.
Proof.
  intros Hp Hev.
  destruct ev as [v rt | v | v [rt |]]; simpl in *;
    destruct (decide (v = u)); simpl; try exact Hp; lra.
Qed.

Lemma fold_avg_nonneg mf u evs : forall p,
  (0 <= avg_response_time p)%Q -> nonneg_times evs ->
  (0 <= avg_response_time (fold_left (on_record mf u) evs p))%Q.
Proof.
  induction evs as [| ev evs IH]; intros p Hp Hevs; simpl; [exact Hp |].
  apply IH; [| exact (Forall_inv_tail Hevs)].
  apply on_record_avg_nonneg; [exact Hp | exact (Forall_inv Hevs)].
Qed.

(** With a non-negative average response time, the [max(0, ...)] of the
    code is the two-sided clamp. *)
Lemma score_clamp p :
  (0 <= avg_response_time p)%Q ->
  (score p ==
   (7 # 10) * success_rate p +
   (3 # 10) * clamp (1 - avg_response_time p / 10) 0 1)%Q.
Proof.
  intros Hp. unfold score, clamp.
  assert (Hx : (1 - avg_response_time p / 10 <= 1)%Q).
  { assert (0 <= avg_response_time p / 10)%Q by (apply Qle_shift_div_l; lra).
    lra. }
  rewrite (Q.min_l _ _ Hx). ring.
Qed.

(** C8. Score: for a record of a pool built by [__init__] and driven by
    reports and probes whose response times are non-negative, the score is
    [0.7 * success_rate + 0.3 * clamp(1 - avg_response_time/10, 0, 1)],
    where [success_rate] is [success_count/total_requests], and 1 when
    [total_requests] is zero. *)
Theorem score_formula
    (urls : list string) (mf : Z) (t0 : Q) (evs : list event)
    (u : string) (p : ProxyInfo) :
  nonneg_times evs ->
  proxies (run (__init__ urls mf t0) evs) !! u = Some p ->
  (score p ==
   (7 # 10) * success_rate p +
   (3 # 10) * clamp (1 - avg_response_time p / 10) 0 1)%Q /\
  (total_requests p = 0 -> success_rate p = 1%Q) /\
  (total_requests p <> 0 ->
   success_rate p =
   (inject_Z (success_count p) / inject_Z (total_requests p))%Q).
Proof.
  intros Hevs Hp. split; [| split].
  - apply score_clamp.
    rewrite run_lookup in Hp.
    destruct (proxies (__init__ urls mf t0) !! u) as [q |] eqn:Hq; [| discriminate].
    simpl in Hp. injection Hp as <-.
    apply fold_avg_nonneg; [| exact Hevs].
    apply init_lookup in Hq. subst q. simpl. lra.
  - intros H0. unfold success_rate. now rewrite H0.
  - intros Hn. unfold success_rate.
    destruct (Z.eqb_spec (total_requests p) 0); [contradiction | reflexivity].
Qed.

Lemma score_formula_witness :
  let p := mkProxyInfo "http://p1:8080" HEALTHY 1 1 (10 # 25) 0 2 in
  (score p ==
   (7 # 10) * success_rate p +
   (3 # 10) * clamp (1 - avg_response_time p / 10) 0 1)%Q /\
  (total_requests p = 0 -> success_rate p = 1%Q) /\
  (total_requests p <> 0 ->
   success_rate p =
   (inject_Z (success_count p) / inject_Z (total_requests p))%Q).
Proof.
  apply (score_formula ["http://p1:8080"%string] 3 0
           [Success "http://p1:8080" 2; Failure "http://p1:8080"]
           "http://p1:8080").
  - repeat constructor; simpl. vm_compute; discriminate.
  - vm_compute. reflexivity.
Defined.

End ProxyManagerFacts.

Section HeaderGeneratorFacts.
Import HeaderGenerator.
Variable urlparse : string -> string * string.

(** C2 (the code departs from it). A caller that supplies no headers at all,
    [None] or an empty dict, supplies no [Referer]; [generate] then returns
    the defaults only, without a [Referer], for every URL. *)
Theorem generate_without_custom_headers_has_no_referer
    (manager : UserAgentManager.t) (pick : nat) (url : string)
    (custom_headers : option (gmap string string)) :
  custom_headers = None \/ custom_headers = Some ∅ ->
  fst (generate urlparse manager pick url custom_headers) !! "Referer"%string
  = None.
Proof.
  intros [-> | ->]; unfold generate;
    destruct (UserAgentManager.get manager pick) as [ua m]; reflexivity.
Qed.

(** The part of C2 that holds: with headers of the caller that have no
    [Referer], the origin of the target is the [Referer]. *)
Lemma generate_derives_referer
    (manager : UserAgentManager.t) (pick : nat) (url : string)
    (h : gmap string string) :
  h <> ∅ -> h !! "Referer"%string = None ->
  fst (generate urlparse manager pick url (Some h)) !! "Referer"%string
  = Some (origin urlparse url).
Proof.
  intros Hne Hr. unfold generate.
  destruct (UserAgentManager.get manager pick) as [ua m]. simpl.
  rewrite (bool_decide_eq_false_2 _ Hne), (bool_decide_eq_true_2 _ Hr). simpl.
  rewrite lookup_union_r by exact Hr. apply lookup_insert_eq.
Qed.

(** The part of C2 that holds: every header of the caller is in the
    result, with the caller's value. *)
Lemma generate_custom_headers_override
    (manager : UserAgentManager.t) (pick : nat) (url : string)
    (h : gmap string string) (name value : string) :
  h !! name = Some value ->
  fst (generate urlparse manager pick url (Some h)) !! name = Some value.
Proof.
  intros Hn. unfold generate.
  destruct (UserAgentManager.get manager pick) as [ua m]. simpl.
  assert (Hne : h <> ∅) by (intros ->; rewrite lookup_empty in Hn; discriminate).
  rewrite (bool_decide_eq_false_2 _ Hne). simpl.
  now apply lookup_union_Some_l.
Qed.

End HeaderGeneratorFacts.

Lemma generate_without_custom_headers_has_no_referer_witness :
  fst (HeaderGenerator.generate HeaderGenerator.example_urlparse
         (UserAgentManager.__init__ "round_robin") 0
         "https://example.com/jobs?page=2" None) !! "Referer"%string = None.
Proof.
  apply (generate_without_custom_headers_has_no_referer
           HeaderGenerator.example_urlparse
           (UserAgentManager.__init__ "round_robin") 0
           "https://example.com/jobs?page=2" None).
  left; reflexivity.
Defined.

Section LRUCacheFacts.
Import LRUCache.
Context {V : Type}.
Variable json_dumps_len : V -> option Z.

Implicit Types (d : list (string * @CacheEntry V)) (k : string).
Implicit Types (ks : list string) (age : string -> nat).

(** *** The ordered dict *)

Lemma keys_app d1 d2 : keys (d1 ++ d2) = keys d1 ++ keys d2.
Proof. unfold keys. apply map_app. Qed.

Lemma od_get_None d k : od_get d k = None <-> k ∉ keys d.
Proof.
  induction d as [| [k' e] d IH]; simpl.
  - split; [intros _; apply not_elem_of_nil | reflexivity].
  - rewrite not_elem_of_cons. destruct (String.eqb_spec k' k) as [-> | Hne].
    + split; [discriminate | intros [H _]; now destruct H].
    + rewrite IH. split; [intros H; split; [congruence | exact H] | intros [_ H]; exact H].
Qed.

Lemma od_get_Some d k e : od_get d k = Some e -> k ∈ keys d.
Proof.
  intros H. destruct (decide (k ∈ keys d)) as [Hin | Hout]; [exact Hin |].
  apply od_get_None in Hout. congruence.
Qed.

Lemma keys_od_del d k : keys (od_del d k) = filter (fun x => x <> k) (keys d).
Proof.
  induction d as [| [k' e] d IH]; [reflexivity |]. simpl.
  destruct (String.eqb_spec k' k) as [-> | Hne].
  - rewrite filter_cons_False by (intros H; exact (H eq_refl)). exact IH.
  - rewrite filter_cons_True by exact Hne. simpl. now rewrite IH.
Qed.

Lemma keys_od_replace d k e : keys (od_replace d k e) = keys d.
Proof.
  induction d as [| [k' e'] d IH]; [reflexivity |]. simpl.
  destruct (String.eqb k' k); simpl; [reflexivity | now rewrite IH].
Qed.

Lemma length_od_replace d k e : length (od_replace d k e) = length d.
Proof.
  induction d as [| [k' e'] d IH]; [reflexivity |]. simpl.
  destruct (String.eqb k' k); simpl; [reflexivity | now rewrite IH].
Qed.

Lemma od_get_replace d k e e0 :
  od_get d k = Some e0 -> od_get (od_replace d k e) k = Some e.
Proof.
  induction d as [| [k' e'] d IH]; [discriminate |]. simpl.
  destruct (String.eqb k' k) eqn:Hk; simpl; rewrite Hk; [reflexivity | exact IH].
Qed.

Lemma length_od_del d k : (length (od_del d k) <= length d)%nat.
Proof.
  induction d as [| [k' e] d IH]; simpl; [lia |].
  destruct (String.eqb k' k); simpl; lia.
Qed.

Lemma length_od_del_lt d k e :
  od_get d k = Some e -> (length (od_del d k) < length d)%nat.
Proof.
  induction d as [| [k' e'] d IH]; [discriminate |]. simpl.
  destruct (String.eqb k' k); simpl.
  - intros _. pose proof (length_od_del d k). lia.
  - intros H. specialize (IH H). lia.
Qed.

Lemma keys_od_move_to_end d k e :
  od_get d k = Some e ->
  keys (od_move_to_end d k) = filter (fun x => x <> k) (keys d) ++ [k].
Proof.
  intros H. unfold od_move_to_end. rewrite H, keys_app, keys_od_del. reflexivity.
Qed.

Lemma length_od_move_to_end d k : (length (od_move_to_end d k) <= length d)%nat.
Proof.
  unfold od_move_to_end. destruct (od_get d k) as [e |] eqn:H; [| lia].
  rewrite length_app. simpl. pose proof (length_od_del_lt d k e H). lia.
Qed.

Lemma filter_ne_absent ks k : k ∉ ks -> filter (fun x => x <> k) ks = ks.
Proof.
  induction ks as [| x ks IH]; [reflexivity |].
  rewrite not_elem_of_cons. intros [Hne Hout].
  rewrite filter_cons_True by congruence. now rewrite IH.
Qed.

Lemma length_fold_od_del ks : forall d,
  (length (fold_left od_del ks d) <= length d)%nat.
Proof.
  induction ks as [| k ks IH]; intros d; simpl; [lia |].
  specialize (IH (od_del d k)). pose proof (length_od_del d k). lia.
Qed.

(** *** Keys in the order of their last touch *)

Lemma StronglySorted_agree age age' ks :
  (forall x, x ∈ ks -> age' x = age x) ->
  StronglySorted (older age) ks -> StronglySorted (older age') ks.
Proof.
  induction ks as [| x ks IH]; intros Hag Hs; [constructor |].
  apply StronglySorted_cons in Hs as [Hx Hs].
  apply StronglySorted_cons. split.
  - rewrite Forall_forall in *. intros y Hy. unfold older.
    rewrite (Hag x), (Hag y); [now apply Hx | now right | now left].
  - apply IH; [| exact Hs]. intros y Hy. apply Hag. now right.
Qed.

Lemma StronglySorted_filter age (P : string -> Prop) `{!forall x, Decision (P x)} ks :
  StronglySorted (older age) ks -> StronglySorted (older age) (filter P ks).
Proof.
  induction ks as [| x ks IH]; intros Hs; [constructor |].
  apply StronglySorted_cons in Hs as [Hx Hs].
  rewrite filter_cons. destruct (decide (P x)); [| now apply IH].
  apply StronglySorted_cons. split; [| now apply IH].
  rewrite Forall_forall in *. intros y Hy.
  apply list_elem_of_filter in Hy as [_ Hy]. now apply Hx.
Qed.

Lemma by_recency_nil age clock : by_recency age clock [].
Proof. split; constructor. Qed.

Lemma by_recency_filter age clock (P : string -> Prop)
    `{!forall x, Decision (P x)} ks :
  by_recency age clock ks -> by_recency age clock (filter P ks).
Proof.
  intros [Hs Hc]. split; [now apply StronglySorted_filter |].
  rewrite Forall_forall in *. intros y Hy.
  apply list_elem_of_filter in Hy as [_ Hy]. now apply Hc.
Qed.

Lemma by_recency_tick age clock ks :
  by_recency age clock ks -> by_recency age (S clock) ks.
Proof.
  intros [Hs Hc]. split; [exact Hs |].
  rewrite Forall_forall in *. intros y Hy. specialize (Hc y Hy). lia.
Qed.

Lemma by_recency_suffix age clock ks1 ks2 :
  by_recency age clock (ks1 ++ ks2) -> by_recency age clock ks2.
Proof.
  intros [Hs Hc]. split.
  - now apply StronglySorted_app_1_r in Hs.
  - now apply Forall_app in Hc as [_ Hc].
Qed.

Lemma touch_at_same age k now : touch_at age k now k = now.
Proof. unfold touch_at. now rewrite String.eqb_refl. Qed.

Lemma touch_at_other age k now x : x <> k -> touch_at age k now x = age x.
Proof.
  intros H. unfold touch_at. now destruct (String.eqb_spec x k).
Qed.

(** A touch of [k] moves it behind all the other keys. *)
Lemma by_recency_touch age clock ks k :
  by_recency age clock ks ->
  by_recency (touch_at age k (S clock)) (S clock)
             (filter (fun x => x <> k) ks ++ [k]).
Proof.
  intros [Hs Hc]. rewrite Forall_forall in Hc.
  assert (Hold : forall x, x ∈ filter (fun x => x <> k) ks ->
                   x <> k /\ (age x <= clock)%nat).
  { intros x Hx. apply list_elem_of_filter in Hx as [Hne Hx]. auto. }
  split.
  - apply StronglySorted_app. split; [| split].
    + intros x1 x2 H1 H2. apply list_elem_of_singleton in H2 as ->.
      destruct (Hold x1 H1) as [Hne Hle]. unfold older.
      rewrite touch_at_same, touch_at_other by exact Hne. lia.
    + apply (StronglySorted_agree age).
      * intros x Hx. apply touch_at_other. now apply Hold.
      * now apply StronglySorted_filter.
    + repeat constructor.
  - apply Forall_app. split.
    + rewrite Forall_forall. intros x Hx. destruct (Hold x Hx) as [Hne Hle].
      rewrite touch_at_other by exact Hne. lia.
    + constructor; [| constructor]. now rewrite touch_at_same.
Qed.

Lemma by_recency_fold_od_del age clock ks : forall d,
  by_recency age clock (keys d) ->
  by_recency age clock (keys (fold_left od_del ks d)).
Proof.
  induction ks as [| k ks IH]; intros d H; simpl; [exact H |].
  apply IH. rewrite keys_od_del. now apply by_recency_filter.
Qed.

(** *** Eviction *)

Lemma evict_app max_size d :
  fst (fst (evict max_size d)) ++ snd (fst (evict max_size d)) = d.
Proof.
  induction d as [| kv d IH]; cbn [evict].
  - destruct (max_size <? _); reflexivity.
  - destruct (max_size <? _); [| reflexivity].
    destruct (evict max_size d) as [[ev rest] r]. simpl in *. now rewrite IH.
Qed.

Lemma evict_fits max_size d :
  0 <= max_size ->
  snd (evict max_size d) = false /\
  Z.of_nat (length (snd (fst (evict max_size d)))) <= max_size /\
  (fst (fst (evict max_size d)) <> [] ->
   Z.of_nat (length (snd (fst (evict max_size d)))) = max_size).
Proof.
  intros Hm. induction d as [| kv d IH].
  - cbn [evict]. destruct (Z.ltb_spec max_size (Z.of_nat (length (@nil (string * @CacheEntry V)))));
      simpl in *; [lia |].
    split; [reflexivity |]. split; [lia | congruence].
  - pose proof (evict_app max_size d) as Happ.
    cbn [evict]. destruct (Z.ltb_spec max_size (Z.of_nat (length (kv :: d)))) as [Hlt | Hge].
    + destruct (evict max_size d) as [[ev rest] r]. simpl in *.
      destruct IH as (Hr & Hle & Heq). split; [exact Hr |]. split; [exact Hle |].
      intros _. destruct ev as [| e ev].
      * simpl in Happ. subst rest. lia.
      * apply Heq. discriminate.
    + simpl. split; [reflexivity |]. split; [exact Hge | congruence].
Qed.

(** *** One operation *)

Lemma step_max_size (self : @t V) o :
  max_size (step json_dumps_len self o) = max_size self.
Proof.
  destruct o as [k now | k v ttl now | k | | readings]; simpl; try reflexivity.
  - unfold get. destruct (od_get (_cache self) k) as [e |]; [| reflexivity].
    destruct (is_expired e now); reflexivity.
  - unfold set. destruct (od_get (_cache self) k); [reflexivity |].
    destruct (evict _ _) as [[ev rest] r]. reflexivity.
  - unfold delete. destruct (od_get (_cache self) k); reflexivity.
Qed.

Lemma step_fits (self : @t V) o :
  0 <= max_size self ->
  Z.of_nat (length (_cache self)) <= max_size self ->
  Z.of_nat (length (_cache (step json_dumps_len self o))) <= max_size self.
Proof.
  intros Hm Hfit.
  destruct o as [k now | k v ttl now | k | | readings]; simpl.
  - unfold get. destruct (od_get (_cache self) k) as [e |]; [| exact Hfit].
    destruct (is_expired e now); simpl.
    + pose proof (length_od_del (_cache self) k). lia.
    + rewrite length_od_replace.
      pose proof (length_od_move_to_end (_cache self) k). lia.
  - unfold set. destruct (od_get (_cache self) k) as [e |] eqn:Hk; simpl.
    + unfold od_set. rewrite Hk.
      pose proof (length_od_move_to_end
                    (od_replace (_cache self) k
                       (mkCacheEntry k v now
                          (match ttl with Some n => n | None => default_ttl self end) 0
                          (match json_dumps_len v with Some n => n | None => 0 end))) k) as H.
      rewrite length_od_replace in H. lia.
    + pose proof (evict_fits (max_size self)
                    (od_set (_cache self) k
                       (mkCacheEntry k v now
                          (match ttl with Some n => n | None => default_ttl self end) 0
                          (match json_dumps_len v with Some n => n | None => 0 end))) Hm)
        as (_ & H & _).
      destruct (evict _ _) as [[ev rest] r]. exact H.
  - unfold delete. destruct (od_get (_cache self) k); simpl; [| exact Hfit].
    pose proof (length_od_del (_cache self) k). lia.
  - exact Hm.
  - pose proof (length_fold_od_del (expired_keys (_cache self) readings 0)
                  (_cache self)). lia.
Qed.

(** Every operation keeps the keys in the order of their last touch. *)
Lemma step_by_recency (self : @t V) o age clock :
  by_recency age clock (keys (_cache self)) ->
  by_recency (touch_of self o clock age) (S clock)
             (keys (_cache (step json_dumps_len self o))).
Proof.
  intros H. unfold touch_of.
  destruct o as [k now | k v ttl now | k | | readings]; simpl.
  - unfold get. destruct (od_get (_cache self) k) as [e |] eqn:Hk; simpl.
    + destruct (is_expired e now); simpl.
      * rewrite keys_od_del. apply by_recency_tick. now apply by_recency_filter.
      * rewrite keys_od_replace, (keys_od_move_to_end _ _ e Hk).
        now apply by_recency_touch.
    + now apply by_recency_tick.
  - unfold set. destruct (od_get (_cache self) k) as [e |] eqn:Hk; simpl.
    + unfold od_set. rewrite Hk.
      erewrite keys_od_move_to_end by (eapply od_get_replace; exact Hk).
      rewrite keys_od_replace. now apply by_recency_touch.
    + pose proof (evict_app (max_size self)
                    (od_set (_cache self) k
                       (mkCacheEntry k v now
                          (match ttl with Some n => n | None => default_ttl self end) 0
                          (match json_dumps_len v with Some n => n | None => 0 end))))
        as Happ.
      destruct (evict _ _) as [[ev rest] r]. simpl in *.
      apply (by_recency_suffix _ _ (keys ev)). rewrite <- keys_app, Happ.
      unfold od_set. rewrite Hk, keys_app. simpl.
      apply od_get_None in Hk.
      rewrite <- (filter_ne_absent _ _ Hk) at 1. now apply by_recency_touch.
  - unfold delete. destruct (od_get (_cache self) k); simpl.
    + rewrite keys_od_del. apply by_recency_tick. now apply by_recency_filter.
    + now apply by_recency_tick.
  - apply by_recency_nil.
  - apply by_recency_tick. now apply by_recency_fold_od_del.
Qed.

(** *** Runs *)

Lemma run_app (self : @t V) ops1 ops2 :
  run json_dumps_len self (ops1 ++ ops2) =
  run json_dumps_len (run json_dumps_len self ops1) ops2.
Proof. unfold run. apply fold_left_app. Qed.

Lemma recency_app ops1 : forall (self : @t V) ops2 clock age,
  recency json_dumps_len self (ops1 ++ ops2) clock age =
  recency json_dumps_len (run json_dumps_len self ops1) ops2
          (length ops1 + clock)
          (recency json_dumps_len self ops1 clock age).
Proof.
  induction ops1 as [| o ops1 IH]; intros self ops2 clock age; [reflexivity |].
  simpl. rewrite IH. f_equal. lia.
Qed.

Lemma run_invariant ops : forall (self : @t V) age clock,
  0 <= max_size self ->
  Z.of_nat (length (_cache self)) <= max_size self ->
  by_recency age clock (keys (_cache self)) ->
  max_size (run json_dumps_len self ops) = max_size self /\
  Z.of_nat (length (_cache (run json_dumps_len self ops))) <= max_size self /\
  by_recency (recency json_dumps_len self ops clock age) (length ops + clock)
             (keys (_cache (run json_dumps_len self ops))).
Proof.
  induction ops as [| o ops IH]; intros self age clock Hm Hfit Hrec.
  - simpl. auto.
  - simpl.
    pose proof (step_max_size self o) as Hms.
    pose proof (step_fits self o Hm Hfit) as Hfit'.
    pose proof (step_by_recency self o age clock Hrec) as Hrec'.
    destruct (IH (step json_dumps_len self o) (touch_of self o clock age) (S clock))
      as (H1 & H2 & H3); rewrite ?Hms; try assumption.
    rewrite Hms in H1, H2. split; [exact H1 |]. split; [exact H2 |].
    replace (S (length ops + clock)) with (length ops + S clock)%nat by lia.
    exact H3.
Qed.

(** C4. Bounded LRU: for a cache built by [__init__] with a capacity that
    is not negative and driven by any gets, sets, deletes, clears and
    sweeps, a [set(key, value, ttl)] does not raise and leaves at most
    [max_size] entries.  A [set] of a key that is in the cache evicts
    nothing.  A [set] of a new key evicts a prefix of the entries in dict
    order: the evicted and the remaining keys together are the keys before
    the call followed by the new key, every evicted key was last touched (by
    a [get] that found it or by a [set]) before every remaining key, and
    when something is evicted exactly [max_size] entries remain. *)
Theorem set_evicts_least_recently_used
    (capacity lifetime : Z) (ops : list (@op V))
    (k : string) (v : V) (ttl : option Z) (now : Q) :
  0 <= capacity ->
  let before := run json_dumps_len (__init__ capacity lifetime) ops in
  let r := set json_dumps_len before k v ttl now in
  let age := recency json_dumps_len (__init__ capacity lifetime)
               (ops ++ [DoSet k v ttl now]) 0 (fun _ => 0%nat) in
  raised r = false /\
  Z.of_nat (length (_cache (cache r))) <= capacity /\
  (od_get (_cache before) k <> None -> evicted r = []) /\
  (od_get (_cache before) k = None ->
   keys (evicted r) ++ keys (_cache (cache r)) = keys (_cache before) ++ [k] /\
   (forall e s, e ∈ keys (evicted r) -> s ∈ keys (_cache (cache r)) ->
                older age e s) /\
   (evicted r <> [] -> Z.of_nat (length (_cache (cache r))) = capacity)).
Proof.
  intros Hm before r age.
  destruct (run_invariant ops (__init__ capacity lifetime) (fun _ => 0%nat) 0%nat)
    as (Hms & Hfit & Hrec); simpl; try lia; [apply by_recency_nil |].
  fold before in Hms, Hfit, Hrec. simpl in Hms, Hfit.
  assert (Hage : age = touch_at
                   (recency json_dumps_len (__init__ capacity lifetime) ops 0
                      (fun _ => 0%nat)) k (S (length ops + 0))).
  { unfold age. rewrite recency_app. reflexivity. }
  pose proof (step_fits before (DoSet k v ttl now)) as Hstep.
  rewrite Hms in Hstep. specialize (Hstep Hm Hfit). simpl in Hstep. fold r in Hstep.
  pose proof (by_recency_touch _ _ _ k Hrec) as Htouch. rewrite <- Hage in Htouch.
  subst r. unfold set in *.
  destruct (od_get (_cache before) k) as [e |] eqn:Hk.
  - simpl in *. split; [reflexivity |]. split; [exact Hstep |].
    split; [reflexivity | discriminate].
  - rewrite Hms in *.
    pose proof (evict_app capacity
                  (od_set (_cache before) k
                     (mkCacheEntry k v now
                        (match ttl with Some n => n | None => default_ttl before end) 0
                        (match json_dumps_len v with Some n => n | None => 0 end))))
      as Happ.
    pose proof (evict_fits capacity
                  (od_set (_cache before) k
                     (mkCacheEntry k v now
                        (match ttl with Some n => n | None => default_ttl before end) 0
                        (match json_dumps_len v with Some n => n | None => 0 end))) Hm)
      as (Hr & Hle & Heq).
    destruct (evict _ _) as [[ev rest] raised]. simpl in *.
    assert (Hkeys : keys ev ++ keys rest = keys (_cache before) ++ [k]).
    { rewrite <- keys_app, Happ. unfold od_set. rewrite Hk, keys_app. reflexivity. }
    split; [exact Hr |]. split; [exact Hle |]. split; [congruence |].
    intros _. split; [exact Hkeys |]. split; [| exact Heq].
    intros x y Hx Hy.
    apply od_get_None in Hk. rewrite (filter_ne_absent _ _ Hk) in Htouch.
    rewrite <- Hkeys in Htouch. destruct Htouch as [Hs _].
    exact (StronglySorted_app_1_elem_of _ _ _ _ _ Hs Hx Hy).
Qed.

End LRUCacheFacts.

(** Capacity 2: after [set a], [set b], [get a], the [set c] evicts [b],
    the key that was touched least recently. *)
Example lru_evicts_b :
  let before :=
    LRUCache.run (fun _ : Z => Some 1) (LRUCache.__init__ 2 3600)
      [LRUCache.DoSet "a" 10 None 0; LRUCache.DoSet "b" 20 None 1;
       LRUCache.DoGet "a" 2] in
  let r := LRUCache.set (fun _ : Z => Some 1) before "c" 30 None 3 in
  LRUCache.keys (LRUCache._cache before) = ["b"; "a"]%string /\
  LRUCache.keys (LRUCache.evicted r) = ["b"]%string /\
  LRUCache.keys (LRUCache._cache (LRUCache.cache r)) = ["a"; "c"]%string.
Proof. repeat split; reflexivity. Qed.

Lemma set_evicts_least_recently_used_witness :
  let ops := [LRUCache.DoSet "a" 10 None 0; LRUCache.DoSet "b" 20 None 1;
              LRUCache.DoGet "a" 2] in
  let before :=
    LRUCache.run (fun _ : Z => Some 1) (LRUCache.__init__ 2 3600) ops in
  let r := LRUCache.set (fun _ : Z => Some 1) before "c" 30 None 3 in
  let age := LRUCache.recency (fun _ : Z => Some 1) (LRUCache.__init__ 2 3600)
               (ops ++ [LRUCache.DoSet "c" 30 None 3]) 0 (fun _ => 0%nat) in
  LRUCache.raised r = false /\
  Z.of_nat (length (LRUCache._cache (LRUCache.cache r))) <= 2 /\
  (LRUCache.od_get (LRUCache._cache before) "c" <> None ->
   LRUCache.evicted r = []) /\
  (LRUCache.od_get (LRUCache._cache before) "c" = None ->
   LRUCache.keys (LRUCache.evicted r) ++
   LRUCache.keys (LRUCache._cache (LRUCache.cache r)) =
   LRUCache.keys (LRUCache._cache before) ++ ["c"%string] /\
   (forall e s, e ∈ LRUCache.keys (LRUCache.evicted r) ->
                s ∈ LRUCache.keys (LRUCache._cache (LRUCache.cache r)) ->
                LRUCache.older age e s) /\
   (LRUCache.evicted r <> [] ->
    Z.of_nat (length (LRUCache._cache (LRUCache.cache r))) = 2)).
Proof.
  apply (set_evicts_least_recently_used (fun _ : Z => Some 1) 2 3600
           [LRUCache.DoSet "a" 10 None 0; LRUCache.DoSet "b" 20 None 1;
            LRUCache.DoGet "a" 2] "c" 30 None 3).
  lia.
Defined.

(* ================================================================= *)
(** * Further properties of the rate limiters *)

Section RateLimiterRunFacts.
Import RateLimiter.

Lemma acquire_turn_over_burst self n now :
  (burst self < n)%Z -> snd (acquire_turn self n now) <> Granted.
Proof.
  intros Hn. unfold acquire_turn.
  destruct (Qle_bool _ _) eqn:Hle; [| destruct (Qeq_bool _ _); discriminate].
  apply Qle_bool_iff in Hle. simpl in Hle.
  pose proof (Q.le_min_l (inject_Z (burst self))
                (tokens self + (now - last_update self) * rate self)) as Hmin.
  assert (inject_Z n <= inject_Z (burst self))%Q by lra.
  rewrite <- Zle_Qle in H. lia.
Qed.

(** X2. A request for more tokens than the capacity is never granted:
    whatever the clock does, [acquire(n)] with [n > burst] keeps sleeping
    (or fails on a zero rate). *)
Theorem acquire_over_burst_never_granted (n : Z) (clock : list Q) :
  forall self : t,
    (burst self < n)%Z ->
    snd (fst (acquire self n clock)) <> Some Granted.
Proof.
  induction clock as [| now clock IH]; intros self Hn; [discriminate |].
  cbn [acquire].
  pose proof (acquire_turn_over_burst self n now Hn) as Hg.
  pose proof (acquire_turn_frame self n now) as (_ & Fb & _).
  destruct (acquire_turn self n now) as [self' r]. simpl in *.
  destruct r; simpl; try congruence.
  apply IH. now rewrite Fb.
Qed.

Lemma acquire_over_burst_never_granted_witness :
  snd (fst (acquire (__init__ 1 2 0) 3 [0; 10; 100]%Q)) <> Some Granted.
Proof.
  apply (acquire_over_burst_never_granted 3 [0; 10; 100]%Q (__init__ 1 2 0)).
  simpl; lia.
Defined.

End RateLimiterRunFacts.

Section DomainRateLimiterFacts.
Import DomainRateLimiter.

Lemma acquire_frame clock : forall (limiter : RateLimiter.t) n,
  RateLimiter.rate (fst (fst (RateLimiter.acquire limiter n clock))) =
    RateLimiter.rate limiter /\
  RateLimiter.burst (fst (fst (RateLimiter.acquire limiter n clock))) =
    RateLimiter.burst limiter.
Proof.
  induction clock as [| now clock IH]; intros limiter n; [split; reflexivity |].
  cbn [RateLimiter.acquire].
  pose proof (acquire_turn_frame limiter n now) as (Fr & Fb & _).
  destruct (RateLimiter.acquire_turn limiter n now) as [l' r]. simpl in Fr, Fb.
  destruct r; simpl; auto.
  destruct (IH l' n) as [Hr Hb]. rewrite Hr, Hb. auto.
Qed.

(** X4. Budgets per domain: [acquire(domain)] changes the bucket of no
    other domain; afterwards the domain has a bucket, and a bucket that
    this call created has the rate and the burst of the limiter. *)
Theorem domain_acquire_isolated
    (self : t) (domain : string) (now : Q) (clock : list Q) :
  let self' := fst (fst (acquire self domain now clock)) in
  (forall other : string, other <> domain ->
     _limiters self' !! other = _limiters self !! other) /\
  (exists limiter,
     _limiters self' !! domain = Some limiter /\
     (_limiters self !! domain = None ->
      RateLimiter.rate limiter = rate self /\
      RateLimiter.burst limiter = burst self)).
Proof.
  unfold acquire, ensure.
  destruct (_limiters self !! domain) as [l |] eqn:Hd; simpl.
  - rewrite Hd.
    destruct (RateLimiter.acquire l 1 clock) as [[l' r] clock']. simpl. split.
    + intros other Hne. now rewrite lookup_insert_ne.
    + exists l'. rewrite lookup_insert_eq. split; [reflexivity | discriminate].
  - rewrite lookup_insert_eq.
    pose proof (acquire_frame clock (RateLimiter.__init__ (rate self) (burst self) now) 1)
      as [Hr Hb].
    destruct (RateLimiter.acquire _ 1 clock) as [[l' r] clock']. simpl in *. split.
    + intros other Hne. rewrite !lookup_insert_ne by congruence. reflexivity.
    + exists l'. rewrite lookup_insert_eq. auto.
Qed.

(** X5. A new domain starts with a full bucket: with a burst of at least
    one, a rate that is not negative and a clock that does not go back, the
    first [acquire] of a domain is granted on its first turn and leaves
    [burst - 1] tokens. *)
Theorem domain_first_acquire_granted
    (self : t) (domain : string) (now first : Q) (clock : list Q) :
  _limiters self !! domain = None ->
  (1 <= burst self)%Z -> (0 <= rate self)%Q -> (now <= first)%Q ->
  exists self' limiter,
    acquire self domain now (first :: clock) =
      (self', Some RateLimiter.Granted, clock) /\
    _limiters self' !! domain = Some limiter /\
    (RateLimiter.tokens limiter == inject_Z (burst self) - 1)%Q.
Proof.
  intros Hd Hb Hr Hn. unfold acquire, ensure. rewrite Hd. simpl.
  rewrite lookup_insert_eq. cbn [RateLimiter.acquire].
  assert (Hfull : (Qmin (inject_Z (burst self))
                     (inject_Z (burst self) + (first - now) * rate self)
                   == inject_Z (burst self))%Q).
  { apply Q.min_l.
    assert (0 <= (first - now) * rate self)%Q by (apply Qmult_le_0_compat; lra).
    lra. }
  unfold RateLimiter.acquire_turn. cbv zeta.
  assert (Hgo : Qle_bool (inject_Z 1)
                  (RateLimiter.tokens
                     (RateLimiter.refill
                        (RateLimiter.__init__ (rate self) (burst self) now) first))
                = true).
  { apply Qle_bool_iff. simpl. rewrite Hfull. now rewrite <- Zle_Qle. }
  rewrite Hgo. eexists _, _. split; [reflexivity |].
  simpl. rewrite lookup_insert_eq. split; [reflexivity |].
  simpl. rewrite Hfull. reflexivity.
Qed.

Lemma domain_first_acquire_granted_witness :
  exists self' limiter,
    acquire (__init__ 2 3) "example.com" 0 [1%Q] =
      (self', Some RateLimiter.Granted, []) /\
    _limiters self' !! "example.com"%string = Some limiter /\
    (RateLimiter.tokens limiter == inject_Z 3 - 1)%Q.
Proof.
  apply (domain_first_acquire_granted (__init__ 2 3) "example.com" 0 1 []).
  - reflexivity.
  - simpl; lia.
  - vm_compute; discriminate.
  - vm_compute; discriminate.
Defined.

End DomainRateLimiterFacts.

Section AdaptiveRateLimiterFacts.
Import AdaptiveRateLimiter.

Lemma step_bounds self ev :
  min_rate (step self ev) = min_rate self /\
  max_rate (step self ev) = max_rate self /\
  adjustment_factor (step self ev) = adjustment_factor self.
Proof.
  destruct ev as [clock | now | now | now]; simpl; auto.
  unfold acquire. destruct (RateLimiter.acquire _ 1 clock) as [[l r] c]. auto.
Qed.

Lemma step_consistent self ev :
  (0 <= min_rate self)%Q -> (0 <= adjustment_factor self)%Q ->
  consistent self -> consistent (step self ev).
Proof.
  intros Hmin Hf (Hlo & Hhi & Hrate & Hburst).
  assert (Hgrow : (0 <= current_rate self * adjustment_factor self)%Q).
  { apply Qmult_le_0_compat; lra. }
  assert (Hdown : consistent (on_rate_limit self (match ev with
                     | Succeeded now | RateLimited now | Errored now => now
                     | Acquired _ => 0%Q end))).
  { unfold consistent, on_rate_limit; simpl. split; [apply Q.le_max_l |].
    split; [| split; reflexivity].
    apply Q.max_lub; lra. }
  destruct ev as [clock | now | now | now]; simpl; try exact Hdown.
  - unfold acquire.
    pose proof (acquire_frame clock (_limiter self) 1) as [Hr Hb].
    destruct (RateLimiter.acquire _ 1 clock) as [[l r] c]. simpl in *.
    unfold consistent; simpl. rewrite Hr, Hb. auto.
  - unfold consistent, on_success; simpl.
    split; [apply Q.min_glb; lra |]. split; [apply Q.le_min_l |].
    destruct (Qeq_bool _ _) eqn:He; simpl.
    + apply Qeq_bool_iff in He. split; [| exact Hburst].
      rewrite Hrate. symmetry. exact He.
    + split; reflexivity.
Qed.

(** X6. Adaptive rate: with [0 <= min_rate <= initial_rate <= max_rate] and
    an adjustment factor that is not negative, after any acquisitions and
    any feedback the current rate is within [[min_rate, max_rate]], and the
    bucket in use runs at the current rate with a burst of one. *)
Theorem adaptive_rate_within_bounds
    (initial_rate lo hi factor t0 : Q) (evs : list event) :
  (0 <= lo)%Q -> (lo <= initial_rate)%Q -> (initial_rate <= hi)%Q ->
  (0 <= factor)%Q ->
  let a := run (__init__ initial_rate lo hi factor t0) evs in
  (lo <= current_rate a)%Q /\ (current_rate a <= hi)%Q /\
  (RateLimiter.rate (_limiter a) == current_rate a)%Q /\
  RateLimiter.burst (_limiter a) = 1.
Proof.
  intros Hlo Hi1 Hi2 Hf a.
  assert (H : forall evs self,
             min_rate self = lo -> max_rate self = hi ->
             adjustment_factor self = factor -> consistent self ->
             consistent (run self evs) /\ min_rate (run self evs) = lo /\
             max_rate (run self evs) = hi).
  { clear a evs. intros evs. unfold run.
    induction evs as [| ev evs IH]; intros self H1 H2 H3 Hc; simpl; [auto |].
    destruct (step_bounds self ev) as (B1 & B2 & B3).
    apply IH; try congruence.
    apply step_consistent; [rewrite H1 | rewrite H3 |]; assumption. }
  destruct (H evs (__init__ initial_rate lo hi factor t0)) as (Hc & H1 & H2);
    try reflexivity; try assumption.
  { unfold consistent; simpl. repeat split; try assumption. }
  fold a in Hc, H1, H2. destruct Hc as (A & B & C & D).
  rewrite H1 in A. rewrite H2 in B. auto.
Qed.

Lemma adaptive_rate_within_bounds_witness :
  let a := run (__init__ 1 (1 # 10) 10 (1 # 2) 0)
             [Succeeded 1; RateLimited 2; Acquired [3%Q]; Errored 4] in
  ((1 # 10) <= current_rate a)%Q /\ (current_rate a <= 10)%Q /\
  (RateLimiter.rate (_limiter a) == current_rate a)%Q /\
  RateLimiter.burst (_limiter a) = 1.
Proof.
  apply (adaptive_rate_within_bounds 1 (1 # 10) 10 (1 # 2) 0
           [Succeeded 1; RateLimited 2; Acquired [3%Q]; Errored 4]);
    vm_compute; discriminate.
Defined.

End AdaptiveRateLimiterFacts.

(* ================================================================= *)
(** * Further properties of the retry handler and the circuit breaker *)

Section RetryHandlerMoreFacts.
Import RetryHandler.
Context {R E : Type}.
Variable status_code : R -> option Z.
Variable is_Exception : E -> bool.

Local Abbreviation attempts := (RetryHandler.attempts status_code is_Exception).
Local Abbreviation execute := (RetryHandler.execute status_code is_Exception).
Local Abbreviation fails := (RetryHandler.fails status_code is_Exception).

(** What [_calculate_delay] gives for the attempts [0 .. n-1]. *)
Local Abbreviation backoff config u n :=
  (map (fun i : nat => _calculate_delay config (Z.of_nat i) (u i)) (seq 0 n)).

Lemma backoff_snoc (config : RetryConfig) (u : nat -> Q) n :
  backoff config u (S n) =
  backoff config u n ++ [_calculate_delay config (Z.of_nat n) (u n)].
Proof. rewrite seq_S, map_app. reflexivity. Qed.

Lemma attempts_bounded (config : RetryConfig) func u fuel :
  forall attempt last slept,
    (0 < fuel)%nat ->
    Z.of_nat attempt + Z.of_nat fuel = max_retries config + 1 ->
    map Some slept = backoff config u attempt ->
    let r := attempts config func u fuel attempt last slept in
    (attempt < invocations r)%nat /\
    Z.of_nat (invocations r) <= max_retries config + 1 /\
    map Some (sleeps r) = backoff config u (pred (invocations r)).
Proof.
  induction fuel as [| fuel IH]; intros attempt last slept Hpos Hsum Hs; [lia |].
  cbn [RetryHandler.attempts].
  assert (Hstop : forall res : R + @error R E,
    let r := @mkRun R E res (S attempt) slept in
    (attempt < invocations r)%nat /\
    Z.of_nat (invocations r) <= max_retries config + 1 /\
    map Some (sleeps r) = backoff config u (pred (invocations r))).
  { intros res. simpl. split; [lia |]. split; [lia | exact Hs]. }
  assert (Hstep : forall e : @error R E,
    let r := if Z.of_nat attempt =? max_retries config
             then @mkRun R E (inr e) (S attempt) slept
             else match _calculate_delay config (Z.of_nat attempt) (u attempt) with
                  | Some delay =>
                      attempts config func u fuel (S attempt) (Some e)
                        (slept ++ [delay])
                  | None => @mkRun R E (inr OverflowError) (S attempt) slept
                  end in
    (attempt < invocations r)%nat /\
    Z.of_nat (invocations r) <= max_retries config + 1 /\
    map Some (sleeps r) = backoff config u (pred (invocations r))).
  { intros e. destruct (Z.eqb_spec (Z.of_nat attempt) (max_retries config)) as [Heq | Hne].
    - apply Hstop.
    - destruct (_calculate_delay config (Z.of_nat attempt) (u attempt))
        as [delay |] eqn:Hd.
      + destruct (IH (S attempt) (Some e) (slept ++ [delay])) as (A & B & C);
          [lia | lia | |].
        * rewrite map_app, Hs, backoff_snoc, Hd. reflexivity.
        * split; [lia |]. split; assumption.
      + apply Hstop. }
  destruct (func attempt) as [r | e].
  - destruct (RetryHandler.retryable status_code config r); [apply Hstep | apply Hstop].
  - destruct (is_Exception e); [apply Hstep | apply Hstop].
Qed.

(** X7. Attempts and sleeps: whatever the operation does, [execute] invokes
    it at most [max_retries + 1] times, and it sleeps exactly once between
    two invocations, the [i]-th sleep being the backoff delay that
    [_calculate_delay] returns for attempt [i]. *)
Theorem execute_attempts_bounded (config : RetryConfig)
    (func : nat -> outcome) (u : nat -> Q) :
  let r := execute config func u in
  (invocations r <= Z.to_nat (max_retries config + 1))%nat /\
  map Some (sleeps r) =
    map (fun i : nat => _calculate_delay config (Z.of_nat i) (u i))
        (seq 0 (pred (invocations r))).
Proof.
  unfold RetryHandler.execute.
  destruct (Z.to_nat (max_retries config + 1)) as [| fuel] eqn:Hfuel.
  - simpl. split; [lia | reflexivity].
  - pose proof (attempts_bounded config func u (S fuel) 0%nat None []) as H.
    cbv zeta in H |- *.
    destruct H as (A & B & C); [lia | lia | reflexivity |].
    split; [lia | exact C].
Qed.

Lemma attempts_first_settled (config : RetryConfig) func u (j : nat) fuel :
  forall attempt last slept,
    (forall i, (i < j)%nat -> fails config (func i)) ->
    (forall i : nat, (i < j)%nat ->
       float_pow (exponential_base config) (Z.of_nat i) <> None) ->
    ~ fails config (func j) ->
    (attempt <= j)%nat -> (j < attempt + fuel)%nat ->
    Z.of_nat attempt + Z.of_nat fuel = max_retries config + 1 ->
    let r := attempts config func u fuel attempt last slept in
    invocations r = S j /\
    result r = match func j with
               | Return x => inl x
               | Raise e => inr (Raised e)
               end.
Proof.
  induction fuel as [| fuel IH]; intros attempt last slept Hf Hp Hj Hle Hlt Hsum;
    [lia |].
  cbn [RetryHandler.attempts].
  destruct (Nat.eq_dec attempt j) as [-> | Hne].
  - unfold RetryHandler.fails in Hj.
    destruct (func j) as [x | e].
    + destruct (RetryHandler.retryable status_code config x); [now destruct Hj |].
      split; reflexivity.
    + destruct (is_Exception e); [now destruct Hj |]. split; reflexivity.
  - assert (Hfa : fails config (func attempt)) by (apply Hf; lia).
    unfold RetryHandler.fails in Hfa.
    assert (Hk : (Z.of_nat attempt =? max_retries config) = false).
    { apply Z.eqb_neq. lia. }
    destruct (func attempt) as [x | e]; rewrite Hfa, Hk;
      rewrite calculate_delay_in_range by (apply Hp; lia);
      apply IH; auto; lia.
Qed.

(** X8. Retrying stops at the first invocation that does not fail: when
    the invocations before the [j]-th fail and the delays after them can
    be computed (the powers [exponential_base ** i], [i < j], are in the
    range of a double), the [j]-th invocation does not fail (it returns a
    result that is not retryable, or raises what is no [Exception]) and
    [j <= max_retries], [execute] invokes the operation [j + 1] times and
    returns that result, or raises that exception. *)
Theorem execute_stops_at_first_settled (config : RetryConfig)
    (func : nat -> outcome) (u : nat -> Q) (j : nat) :
  (forall i, (i < j)%nat -> fails config (func i)) ->
  (forall i : nat, (i < j)%nat ->
     float_pow (exponential_base config) (Z.of_nat i) <> None) ->
  ~ fails config (func j) ->
  Z.of_nat j <= max_retries config ->
  invocations (execute config func u) = S j /\
  result (execute config func u) =
    match func j with
    | Return x => inl x
    | Raise e => inr (Raised e)
    end.
Proof.
  intros Hf Hp Hj Hk. unfold RetryHandler.execute.
  apply attempts_first_settled; auto; lia.
Qed.

End RetryHandlerMoreFacts.

Lemma execute_stops_at_first_settled_witness :
  RetryHandler.invocations
    (RetryHandler.execute Some (fun _ : unit => true)
       RetryHandler.default_config RetryHandler.flaky_then_200
       (fun _ => 0%Q)) = 3%nat /\
  RetryHandler.result
    (RetryHandler.execute Some (fun _ : unit => true)
       RetryHandler.default_config RetryHandler.flaky_then_200
       (fun _ => 0%Q)) = inl 200.
Proof.
  apply (execute_stops_at_first_settled Some (fun _ : unit => true)
           RetryHandler.default_config RetryHandler.flaky_then_200
           (fun _ => 0%Q) 2).
  - intros [| [| i]] Hi; try reflexivity. lia.
  - intros [| [| i]] Hi; try (vm_compute; discriminate). lia.
  - simpl. discriminate.
  - simpl; lia.
Defined.



Section CircuitBreakerRunFacts.
Import CircuitBreaker CircuitBreakerRuns.
Context {R E : Type}.
Variable expected : E -> bool.

Local Abbreviation call := (@CircuitBreaker.call R E expected).
Local Abbreviation after := (@CircuitBreakerRuns.after R E expected).

Lemma after_cons (self : t) (c : Q * @outcome R E * Q) trace :
  after self (c :: trace) =
  after (breaker (call self (fst (fst c)) (snd (fst c)) (snd c))) trace.
Proof. reflexivity. Qed.

Lemma call_settings (self : t) now (func : @outcome R E) later :
  failure_threshold (breaker (call self now func later)) = failure_threshold self /\
  recovery_timeout (breaker (call self now func later)) = recovery_timeout self.
Proof.
  unfold CircuitBreaker.call, _on_success, _on_failure, set_state.
  destruct (_state self); simpl;
    try destruct (_should_attempt_reset self now); simpl;
    destruct func as [r | e]; simpl;
    try destruct (expected e); simpl;
    repeat match goal with |- context [if ?b then _ else _] => destruct b end;
    simpl; auto.
Qed.

Lemma after_settings trace : forall self : t,
  failure_threshold (after self trace) = failure_threshold self /\
  recovery_timeout (after self trace) = recovery_timeout self.
Proof.
  induction trace as [| c trace IH]; intros self; [split; reflexivity |].
  rewrite after_cons.
  destruct (IH (breaker (call self (fst (fst c)) (snd (fst c)) (snd c)))) as [H1 H2].
  destruct (call_settings self (fst (fst c)) (snd (fst c)) (snd c)) as [H3 H4].
  split; congruence.
Qed.

Lemma on_success_sound (self : t) :
  0 <= _success_count self -> _state self <> OPEN ->
  sound (_on_success self).
Proof.
  intros Hs Hn. unfold sound, _on_success.
  destruct (_state self) eqn:Hst; simpl; try contradiction.
  - rewrite ?Hst. split; [exact Hs | discriminate].
  - destruct (2 <=? _success_count self + 1); simpl; rewrite ?Hst;
      (split; [lia | discriminate]).
Qed.

Lemma on_failure_sound (self : t) now :
  0 <= _success_count self -> sound (_on_failure self now).
Proof.
  intros Hs. unfold sound, _on_failure, set_state.
  destruct (_state self); simpl;
    try destruct (failure_threshold self <=? _failure_count self + 1); simpl;
    (split; [exact Hs | intros _; eexists; reflexivity]).
Qed.

Lemma call_sound (self : t) now (func : @outcome R E) later :
  sound self -> sound (breaker (call self now func later)).
Proof.
  intros [Hs Ho]. unfold CircuitBreaker.call.
  assert (Hgo : forall b : t,
             _success_count b = _success_count self -> _state b <> OPEN ->
             sound (breaker
                      match func with
                      | Return r => mkCalled (_on_success b) true (inl r)
                      | Raise e =>
                          if expected e
                          then mkCalled (_on_failure b later) true (inr (Raised e))
                          else mkCalled b true (inr (Raised e))
                      end)).
  { intros b Hb Hn. destruct func as [r | e]; simpl.
    - apply on_success_sound; [lia | exact Hn].
    - destruct (expected e); simpl.
      + apply on_failure_sound. lia.
      + split; [lia | intros; contradiction]. }
  destruct (_state self) eqn:Hst.
  - apply Hgo; [reflexivity | congruence].
  - destruct (_should_attempt_reset self now).
    + apply Hgo; [reflexivity | discriminate].
    + simpl. split; [exact Hs | intros _; now apply Ho].
  - apply Hgo; [reflexivity | congruence].
Qed.

Lemma after_sound trace : forall self : t, sound self -> sound (after self trace).
Proof.
  induction trace as [| c trace IH]; intros self Hs; [exact Hs |].
  rewrite after_cons. apply IH. now apply call_sound.
Qed.

Lemma init_sound threshold timeout : sound (__init__ threshold timeout).
Proof. split; simpl; [lia | discriminate]. Qed.

Lemma failures_from_closed trace : forall self : t,
  _state self = CLOSED -> Forall (failing expected) trace ->
  (_failure_count self + Z.of_nat (length trace) < failure_threshold self ->
   _state (after self trace) = CLOSED /\
   _failure_count (after self trace) =
     _failure_count self + Z.of_nat (length trace)) /\
  ((0 < length trace)%nat ->
   _failure_count self + Z.of_nat (length trace) = failure_threshold self ->
   _state (after self trace) = OPEN).
Proof.
  induction trace as [| c trace IH]; intros self Hst Hf.
  - simpl. split; [intros _; split; [exact Hst | lia] | lia].
  - pose proof (Forall_inv Hf) as Hc. pose proof (Forall_inv_tail Hf) as Hf'.
    rewrite after_cons. destruct c as [[now func] later]. simpl fst; simpl snd.
    unfold failing in Hc. simpl in Hc.
    destruct func as [r | e]; [contradiction |].
    set (b := breaker (call self now (Raise e) later)).
    assert (Hb : _failure_count b = _failure_count self + 1 /\
                 failure_threshold b = failure_threshold self /\
                 _state b = if failure_threshold self <=? _failure_count self + 1
                            then OPEN else CLOSED).
    { unfold b, CircuitBreaker.call. rewrite Hst, Hc. simpl.
      unfold _on_failure. rewrite Hst. simpl.
      destruct (failure_threshold self <=? _failure_count self + 1); simpl; auto. }
    destruct Hb as (Hcnt & Hthr & Hstate).
    change (length ((now, Raise e, later) :: trace)) with (S (length trace)).
    destruct (Z.leb_spec (failure_threshold self) (_failure_count self + 1)) as [Hge | Hlt].
    + split; [lia |]. intros _ Heq.
      assert (Hl : length trace = 0%nat) by lia.
      destruct trace; [exact Hstate | discriminate].
    + destruct (IH b Hstate Hf') as [IH1 IH2]. rewrite Hcnt, Hthr in IH1, IH2.
      split.
      * intros Hsum. destruct IH1 as [A B]; [lia |]. split; [exact A | lia].
      * intros _ Hsum. apply IH2; lia.
Qed.

(** X10. The breaker opens on the failure that reaches the threshold: on a
    new breaker, calls that all fail leave it closed, with their number as
    failure count, while they are fewer than [failure_threshold], and
    open when they are exactly [failure_threshold]. *)
Theorem breaker_opens_at_threshold
    (threshold : Z) (timeout : Q) (trace : list (Q * @outcome R E * Q)) :
  Forall (failing expected) trace ->
  let b := after (__init__ threshold timeout) trace in
  (Z.of_nat (length trace) < threshold ->
   _state b = CLOSED /\ _failure_count b = Z.of_nat (length trace)) /\
  ((0 < length trace)%nat -> Z.of_nat (length trace) = threshold ->
   _state b = OPEN).
Proof.
  intros Hf b.
  destruct (failures_from_closed trace (__init__ threshold timeout) eq_refl Hf)
    as [H1 H2].
  simpl in H1, H2. split; [exact H1 | exact H2].
Qed.

(** X11. The breaker is never stuck open: a breaker that any calls have
    opened knows the time of its last failure, and any call made
    [recovery_timeout] or more after that time is let through as a probe
    of the half-open breaker.  The call ends as the operation does: when
    the operation returns [r], [call] returns [r] and the half-open breaker
    has recorded a success; when it raises [e], [call] raises [e], and the
    half-open breaker has recorded a failure if [e] is an expected
    exception and stays half-open if not. *)
Theorem open_breaker_recovers
    (threshold : Z) (timeout : Q) (trace : list (Q * @outcome R E * Q))
    (now : Q) (func : @outcome R E) (later : Q) :
  let b := after (__init__ threshold timeout) trace in
  _state b = OPEN ->
  exists last,
    _last_failure_time b = Some last /\
    ((last + timeout <= now)%Q ->
     call b now func later =
       match func with
       | Return r =>
           {| breaker := _on_success (set_state b HALF_OPEN); invoked := true;
              result := inl r |}
       | Raise e =>
           {| breaker := if expected e
                         then _on_failure (set_state b HALF_OPEN) later
                         else set_state b HALF_OPEN;
              invoked := true; result := inr (Raised e) |}
       end).
Proof.
  intros b Hopen.
  destruct (after_sound trace _ (init_sound threshold timeout)) as [_ Hlast].
  fold b in Hlast. destruct (Hlast Hopen) as [last Hl].
  destruct (after_settings trace (__init__ threshold timeout)) as [_ Ht].
  fold b in Ht. simpl in Ht.
  exists last. split; [exact Hl |]. intros Hnow.
  unfold CircuitBreaker.call, _should_attempt_reset. rewrite Hopen, Hl, Ht.
  assert (Hgo : Qle_bool timeout (now - last) = true).
  { apply Qle_bool_iff. lra. }
  rewrite Hgo. destruct func as [r | e]; [| destruct (expected e)]; reflexivity.
Qed.

(** X12. Two successes in a row close the breaker: after any calls, when a
    call is let through and succeeds, the next call is let through as well,
    and if it succeeds too the breaker is closed. *)
Theorem two_successes_close
    (threshold : Z) (timeout : Q) (trace : list (Q * @outcome R E * Q))
    (now1 later1 now2 later2 : Q) (r1 r2 : R) :
  let b := after (__init__ threshold timeout) trace in
  invoked (call b now1 (Return r1) later1) = true ->
  let b1 := breaker (call b now1 (Return r1) later1) in
  invoked (call b1 now2 (Return r2) later2) = true /\
  _state (breaker (call b1 now2 (Return r2) later2)) = CLOSED.
Proof.
  intros b Hinv b1.
  destruct (after_sound trace _ (init_sound threshold timeout)) as [Hs _].
  fold b in Hs.
  assert (Hb1 : _state b1 = CLOSED \/
                (_state b1 = HALF_OPEN /\ _success_count b1 = 1)).
  { unfold b1, CircuitBreaker.call in *.
    assert (Hhalf : forall c : t, _state c = HALF_OPEN ->
                      _success_count c = _success_count b ->
                      _state (_on_success c) = CLOSED \/
                      (_state (_on_success c) = HALF_OPEN /\
                       _success_count (_on_success c) = 1)).
    { intros c Hc Hsc. unfold _on_success. simpl. rewrite Hc.
      destruct (Z.leb_spec 2 (_success_count c + 1)); simpl; [now left |].
      right. split; [reflexivity | lia]. }
    destruct (_state b) eqn:Hst.
    - left. unfold _on_success. simpl. rewrite Hst. reflexivity.
    - destruct (_should_attempt_reset b now1); [| discriminate].
      simpl. apply Hhalf; reflexivity.
    - simpl. apply Hhalf; [exact Hst | reflexivity]. }
  unfold CircuitBreaker.call.
  destruct Hb1 as [Hc | [Hh Hc]]; rewrite ?Hc, ?Hh; simpl.
  - split; [reflexivity |]. unfold _on_success. simpl. rewrite Hc. reflexivity.
  - split; [reflexivity |]. unfold _on_success. simpl. rewrite Hh, Hc. reflexivity.
Qed.

End CircuitBreakerRunFacts.

Lemma breaker_opens_at_threshold_witness :
  let b := CircuitBreakerRuns.after (fun _ : unit => true)
             (CircuitBreaker.__init__ 2 10)
             [(0%Q, CircuitBreaker.ko, 0%Q); (1%Q, CircuitBreaker.ko, 1%Q)] in
  (2 < 2 -> CircuitBreaker._state b = CircuitBreaker.CLOSED /\
            CircuitBreaker._failure_count b = 2) /\
  ((0 < 2)%nat -> 2 = 2 -> CircuitBreaker._state b = CircuitBreaker.OPEN).
Proof.
  apply (breaker_opens_at_threshold (fun _ : unit => true) 2 10
           [(0%Q, CircuitBreaker.ko, 0%Q); (1%Q, CircuitBreaker.ko, 1%Q)]).
  repeat constructor.
Defined.

Lemma open_breaker_recovers_witness :
  let b := CircuitBreakerRuns.after (fun _ : unit => true)
             (CircuitBreaker.__init__ 1 10) [(0%Q, CircuitBreaker.ko, 0%Q)] in
  CircuitBreaker._last_failure_time b = Some 0%Q /\
  CircuitBreaker.call (fun _ : unit => true) b 20 CircuitBreaker.ok 20 =
    {| CircuitBreaker.breaker :=
         CircuitBreaker._on_success
           (CircuitBreaker.set_state b CircuitBreaker.HALF_OPEN);
       CircuitBreaker.invoked := true;
       CircuitBreaker.result := inl tt |}.
Proof.
  intros b.
  destruct (open_breaker_recovers (fun _ : unit => true) 1 10
              [(0%Q, CircuitBreaker.ko, 0%Q)] 20 CircuitBreaker.ok 20 eq_refl)
    as [last [Hl H]].
  split; [reflexivity |]. apply H.
  vm_compute in Hl. injection Hl as <-. vm_compute. discriminate.
Defined.

Lemma two_successes_close_witness :
  let b := CircuitBreakerRuns.after (fun _ : unit => true)
             (CircuitBreaker.__init__ 1 10) [(0%Q, CircuitBreaker.ko, 0%Q)] in
  let b1 := CircuitBreaker.breaker
              (CircuitBreaker.call (fun _ : unit => true) b 20
                 CircuitBreaker.ok 20) in
  CircuitBreaker.invoked
    (CircuitBreaker.call (fun _ : unit => true) b1 21 CircuitBreaker.ok 21)
  = true /\
  CircuitBreaker._state
    (CircuitBreaker.breaker
       (CircuitBreaker.call (fun _ : unit => true) b1 21 CircuitBreaker.ok 21))
  = CircuitBreaker.CLOSED.
Proof.
  apply (two_successes_close (fun _ : unit => true) 1 10
           [(0%Q, CircuitBreaker.ko, 0%Q)] 20 20 21 21 tt tt).
  reflexivity.
Defined.

(* ================================================================= *)
(** * Further properties of the caches *)

Section LRUCacheMoreFacts.
Import LRUCache LRUCacheStats.
Context {V : Type}.
Variable json_dumps_len : V -> option Z.

Implicit Types (d : list (string * @CacheEntry V)) (k : string).

Local Abbreviation get := (@LRUCache.get V).
Local Abbreviation set := (@LRUCache.set V json_dumps_len).
Local Abbreviation step := (@LRUCache.step V json_dumps_len).
Local Abbreviation run := (@LRUCache.run V json_dumps_len).

Lemma od_get_app d1 d2 k :
  od_get (d1 ++ d2) k =
  match od_get d1 k with Some e => Some e | None => od_get d2 k end.
Proof.
  induction d1 as [| [k' e] d1 IH]; [reflexivity |]. simpl.
  destruct (String.eqb k' k); [reflexivity | exact IH].
Qed.

Lemma od_get_del_same d k : od_get (od_del d k) k = None.
Proof.
  induction d as [| [k' e] d IH]; [reflexivity |]. simpl.
  destruct (String.eqb k' k) eqn:Hk; [exact IH |]. simpl. now rewrite Hk.
Qed.

Lemma od_get_del_other d k k' : k' <> k -> od_get (od_del d k) k' = od_get d k'.
Proof.
  intros Hne. induction d as [| [k0 e] d IH]; [reflexivity |]. simpl.
  destruct (String.eqb_spec k0 k) as [-> | H0]; simpl.
  - destruct (String.eqb_spec k k'); [congruence | exact IH].
  - destruct (String.eqb k0 k'); [reflexivity | exact IH].
Qed.

Lemma od_get_singleton k (e : @CacheEntry V) : od_get [(k, e)] k = Some e.
Proof. simpl. now rewrite String.eqb_refl. Qed.

(** With room for one entry at least, eviction spares the newest one. *)
Lemma evict_keeps_last max_size d (kv : string * @CacheEntry V) :
  1 <= max_size ->
  exists d2, snd (fst (evict max_size (d ++ [kv]))) = d2 ++ [kv] /\
             fst (fst (evict max_size (d ++ [kv]))) ++ d2 = d.
Proof.
  intros Hm. induction d as [| x d IH].
  - exists []. cbn [app evict].
    destruct (Z.ltb_spec max_size (Z.of_nat (length [kv]))) as [H | H];
      simpl in H; [lia |]. split; reflexivity.
  - change ((x :: d) ++ [kv]) with (x :: (d ++ [kv])). cbn [evict].
    destruct (max_size <? _).
    + destruct IH as (d2 & H1 & H2).
      destruct (evict max_size (d ++ [kv])) as [[ev rest] r]. simpl in *.
      exists d2. split; [exact H1 | now rewrite H2].
    + exists (x :: d). split; reflexivity.
Qed.

(** The entry that [set] stores is the one a lookup of the key finds. *)
Lemma set_stores (self : @t V) k (v : V) (life : option Z) now :
  1 <= max_size self ->
  od_get (_cache (cache (set self k v life now))) k =
  Some (mkCacheEntry k v now
          (match life with Some n => n | None => default_ttl self end) 0
          (match json_dumps_len v with Some n => n | None => 0 end)).
Proof.
  intros Hm. unfold LRUCache.set.
  set (entry := mkCacheEntry k v now _ 0 _).
  destruct (od_get (_cache self) k) as [e0 |] eqn:Hk; simpl.
  - unfold od_set. rewrite Hk. unfold od_move_to_end.
    rewrite (od_get_replace _ _ entry e0 Hk).
    rewrite od_get_app, od_get_del_same. apply od_get_singleton.
  - unfold od_set. rewrite Hk.
    destruct (evict_keeps_last (max_size self) (_cache self) (k, entry) Hm)
      as (d2 & H1 & H2).
    destruct (evict _ _) as [[ev rest] r]. simpl in *. subst rest.
    rewrite od_get_app.
    assert (Hd2 : od_get d2 k = None).
    { apply od_get_None. apply od_get_None in Hk.
      rewrite <- H2, keys_app in Hk. apply not_elem_of_app in Hk. apply Hk. }
    rewrite Hd2. apply od_get_singleton.
Qed.

Lemma set_then_get_live (self : @t V) (k : string) (v : V)
    (life : option Z) (now later : Q) :
  1 <= max_size self ->
  let seconds := match life with Some n => n | None => default_ttl self end in
  seconds <= 0 \/ (later - now <= inject_Z seconds)%Q ->
  fst (get (cache (set self k v life now)) k later) = Some v.
Proof.
  intros Hm seconds Hlive. unfold LRUCache.get.
  rewrite (set_stores self k v life now Hm).
  assert (Hexp : is_expired
                   (mkCacheEntry k v now seconds 0
                      (match json_dumps_len v with Some n => n | None => 0 end))
                   later = false).
  { unfold is_expired. simpl. destruct (Z.leb_spec seconds 0); [reflexivity |].
    destruct Hlive as [H0 | Hl]; [lia |].
    unfold Qlt_bool. apply negb_false_iff. now apply Qle_bool_iff. }
  fold seconds. rewrite Hexp. reflexivity.
Qed.

(** X13. A value that was set is the value that is got: in a cache with
    room for one entry at least, a [get] of the key of a [set] returns the
    value of the [set], when the entry never expires ([ttl <= 0]) or no
    more than [ttl] seconds have passed. *)
Theorem get_after_set (self : @t V) (k : string) (v : V)
    (life : option Z) (now later : Q) :
  1 <= max_size self ->
  let seconds := match life with Some n => n | None => default_ttl self end in
  seconds <= 0 \/ (later - now <= inject_Z seconds)%Q ->
  fst (get (cache (set self k v life now)) k later) = Some v.
Proof. apply set_then_get_live. Qed.

(** X14. An expired entry is absent and is removed: a [get] later than
    [ttl > 0] seconds after the [set] returns nothing, counts a miss and
    deletes the entry, and leaves the other keys as they are. *)
Theorem get_after_expiry (self : @t V) (k : string) (v : V)
    (life : option Z) (now later : Q) :
  1 <= max_size self ->
  let seconds := match life with Some n => n | None => default_ttl self end in
  0 < seconds -> (inject_Z seconds < later - now)%Q ->
  let stored := cache (set self k v life now) in
  let r := get stored k later in
  fst r = None /\
  od_get (_cache (snd r)) k = None /\
  _misses (snd r) = _misses stored + 1 /\
  forall k', k' <> k -> od_get (_cache (snd r)) k' = od_get (_cache stored) k'.
Proof.
  intros Hm seconds Hpos Hlate stored r. unfold r, LRUCache.get, stored.
  rewrite (set_stores self k v life now Hm).
  assert (Hexp : is_expired
                   (mkCacheEntry k v now seconds 0
                      (match json_dumps_len v with Some n => n | None => 0 end))
                   later = true).
  { unfold is_expired. simpl. destruct (Z.leb_spec seconds 0); [lia |].
    unfold Qlt_bool. apply negb_true_iff.
    destruct (Qle_bool _ _) eqn:Hle; [| reflexivity].
    apply Qle_bool_iff in Hle. lra. }
  fold seconds. rewrite Hexp. simpl.
  split; [reflexivity |]. split; [apply od_get_del_same |].
  split; [reflexivity |]. intros k' Hne. now apply od_get_del_other.
Qed.

End LRUCacheMoreFacts.

Lemma get_after_set_witness :
  fst (LRUCache.get
         (LRUCache.cache
            (LRUCache.set (fun _ : Z => Some 1) (LRUCache.__init__ 1 3600)
               "k" 7 None 0)) "k" 3600) = Some 7.
Proof.
  apply (get_after_set (fun _ : Z => Some 1) (LRUCache.__init__ 1 3600)
           "k" 7 None 0 3600).
  - simpl; lia.
  - right. vm_compute. discriminate.
Defined.

Lemma get_after_expiry_witness :
  let stored := LRUCache.cache
                  (LRUCache.set (fun _ : Z => Some 1) (LRUCache.__init__ 1 3600)
                     "k" 7 (Some 1) 0) in
  let r := LRUCache.get stored "k" 2 in
  fst r = None /\
  LRUCache.od_get (LRUCache._cache (snd r)) "k" = None /\
  LRUCache._misses (snd r) = LRUCache._misses stored + 1 /\
  forall k', k' <> "k"%string ->
             LRUCache.od_get (LRUCache._cache (snd r)) k' =
             LRUCache.od_get (LRUCache._cache stored) k'.
Proof.
  apply (get_after_expiry (fun _ : Z => Some 1) (LRUCache.__init__ 1 3600)
           "k" 7 (Some 1) 0 2).
  - simpl; lia.
  - lia.
  - vm_compute. reflexivity.
Defined.

Section LRUCacheRunFacts.
Import LRUCache LRUCacheStats.
Context {V : Type}.
Variable json_dumps_len : V -> option Z.

Implicit Types (d : list (string * @CacheEntry V)) (k : string).

Local Abbreviation step := (@LRUCache.step V json_dumps_len).
Local Abbreviation run := (@LRUCache.run V json_dumps_len).
Local Abbreviation init := (@LRUCache.__init__ V).

(** X15. [delete]: it answers whether the key was there, afterwards the
    key is absent, and the entries of the other keys are untouched. *)
Theorem delete_removes_key (self : @t V) (k : string) :
  let r := delete self k in
  (fst r = true <-> od_get (_cache self) k <> None) /\
  od_get (_cache (snd r)) k = None /\
  (forall k', k' <> k -> od_get (_cache (snd r)) k' = od_get (_cache self) k') /\
  (fst r = false -> snd r = self).
Proof.
  unfold delete. destruct (od_get (_cache self) k) as [e |] eqn:Hk; simpl.
  - split; [split; [discriminate | reflexivity] |].
    split; [apply od_get_del_same |].
    split; [intros k' Hne; now apply od_get_del_other | discriminate].
  - split; [split; [discriminate | congruence] |].
    split; [exact Hk |]. split; reflexivity.
Qed.

(** The keys of a cache that [__init__] built are all different. *)
Lemma sorted_NoDup (age : string -> nat) (ks : list string) :
  StronglySorted (older age) ks -> NoDup ks.
Proof.
  induction ks as [| x ks IH]; intros Hs; [constructor |].
  apply StronglySorted_cons in Hs as [Hx Hs]. constructor; [| now apply IH].
  intros Hin. rewrite Forall_forall in Hx. specialize (Hx x Hin).
  unfold older in Hx. lia.
Qed.

Lemma run_by_recency ops : forall (self : @t V) age clock,
  by_recency age clock (keys (_cache self)) ->
  by_recency (recency json_dumps_len self ops clock age) (length ops + clock)
             (keys (_cache (run self ops))).
Proof.
  induction ops as [| o ops IH]; intros self age clock H; [exact H |].
  simpl. replace (S (length ops + clock)) with (length ops + S clock)%nat by lia.
  apply IH. now apply step_by_recency.
Qed.

Lemma run_keys_unique capacity lifetime ops :
  NoDup (keys (_cache (run (init capacity lifetime) ops))).
Proof.
  destruct (run_by_recency ops (init capacity lifetime) (fun _ => 0%nat) 0%nat)
    as [Hs _]; [apply by_recency_nil |].
  exact (sorted_NoDup _ _ Hs).
Qed.

Lemma od_del_filter d k :
  od_del d k = List.filter (fun kv => negb (String.eqb (fst kv) k)) d.
Proof.
  induction d as [| [k' e] d IH]; [reflexivity |]. simpl.
  destruct (String.eqb k' k); simpl; now rewrite IH.
Qed.

Lemma filter_filter_andb {A} (f g : A -> bool) (l : list A) :
  List.filter g (List.filter f l) = List.filter (fun x => f x && g x) l.
Proof.
  induction l as [| x l IH]; [reflexivity |]. simpl.
  destruct (f x); simpl; [destruct (g x) |]; now rewrite IH.
Qed.

Lemma fold_od_del_filter ks : forall d,
  fold_left od_del ks d =
  List.filter (fun kv => negb (existsb (String.eqb (fst kv)) ks)) d.
Proof.
  induction ks as [| k ks IH]; intros d; simpl.
  - induction d as [| x d IHd]; [reflexivity |]. simpl. now rewrite <- IHd.
  - rewrite IH, od_del_filter, filter_filter_andb.
    apply List.filter_ext. intros kv. now rewrite negb_orb.
Qed.

Lemma unique_key_entry d (kv kv' : string * @CacheEntry V) :
  NoDup (keys d) -> In kv d -> In kv' d -> fst kv = fst kv' -> kv = kv'.
Proof.
  induction d as [| x d IH]; intros Hnd Hin Hin' Hk; [contradiction |].
  unfold keys in Hnd. simpl in Hnd. apply NoDup_cons in Hnd as [Hx Hnd].
  assert (Hmem : forall y, In y d -> fst y ∈ map fst d).
  { intros y Hy. apply list_elem_of_In. now apply in_map. }
  destruct Hin as [<- | Hin], Hin' as [<- | Hin']; auto.
  - exfalso. apply Hx. rewrite Hk. now apply Hmem.
  - exfalso. apply Hx. rewrite <- Hk. now apply Hmem.
Qed.

Lemma expired_keys_in_keys (d : @odict V) clock : forall i k,
  In k (expired_keys d clock i) -> In k (keys d).
Proof.
  induction d as [| [k' e] d IH]; intros i k Hin; [contradiction |].
  simpl in Hin. destruct (is_expired e (clock i)).
  - destruct Hin as [<- | Hin]; [now left | right; now apply (IH (S i))].
  - right. now apply (IH (S i)).
Qed.

Lemma sweep_live_at (d : @odict V) clock : forall i,
  NoDup (keys d) ->
  fold_left od_del (expired_keys d clock i) d = live_at d clock i.
Proof.
  induction d as [| [k e] d IH]; intros i Hnd.
  - reflexivity.
  - unfold keys in Hnd. simpl in Hnd. apply NoDup_cons in Hnd as [Hk Hnd].
    rewrite list_elem_of_In in Hk. fold (keys d) in Hk, Hnd.
    specialize (IH (S i) Hnd). rewrite fold_od_del_filter in IH.
    rewrite fold_od_del_filter. simpl.
    destruct (is_expired e (clock i)) eqn:Hexp.
    + simpl. rewrite String.eqb_refl. simpl. rewrite <- IH.
      apply List.filter_ext_in. intros kv Hin.
      assert (Hne : String.eqb (fst kv) k = false).
      { apply String.eqb_neq. intros Heq. apply Hk. rewrite <- Heq.
        unfold keys. now apply in_map. }
      now rewrite Hne.
    + assert (Hout : existsb (String.eqb k) (expired_keys d clock (S i)) = false).
      { destruct (existsb _ _) eqn:Hex; [| reflexivity].
        apply existsb_exists in Hex as (k' & Hin & Heq).
        apply String.eqb_eq in Heq. subst k'.
        exfalso. apply Hk. now apply (expired_keys_in_keys d clock (S i)). }
      rewrite Hout. simpl. now rewrite IH.
Qed.

(** X16. The sweep: on a cache that [__init__] built, after any
    operations, [cleanup_expired] leaves exactly the entries that are not
    expired at the time when the sweep examines them, each at the clock
    reading of its own [is_expired()], in their order, and does not
    change the counters. *)
Theorem cleanup_expired_keeps_live
    (capacity lifetime : Z) (ops : list (@op V)) (clock : nat -> Q) :
  let c := run (init capacity lifetime) ops in
  _cache (cleanup_expired c clock) = live_at (_cache c) clock 0 /\
  _hits (cleanup_expired c clock) = _hits c /\
  _misses (cleanup_expired c clock) = _misses c.
Proof.
  intros c. split; [| split; reflexivity].
  pose proof (run_keys_unique capacity lifetime ops) as Hnd. fold c in Hnd.
  unfold cleanup_expired. simpl. now apply sweep_live_at.
Qed.

Lemma step_counted (self : @t V) o rops :
  counted self (gets_since_clear rops) ->
  counted (step self o) (gets_since_clear (o :: rops)).
Proof.
  unfold counted. intros (H1 & H2 & H3).
  destruct o as [k now | k v ttl now | k | | readings]; simpl.
  - unfold LRUCache.get. destruct (od_get (_cache self) k) as [e |]; simpl; [| lia].
    destruct (is_expired e now); simpl; lia.
  - unfold LRUCache.set. destruct (od_get (_cache self) k); simpl; [lia |].
    destruct (evict _ _) as [[ev rest] r]. simpl. lia.
  - unfold delete. destruct (od_get (_cache self) k); simpl; lia.
  - lia.
  - lia.
Qed.

Lemma run_counted ops : forall (self : @t V) rops,
  counted self (gets_since_clear rops) ->
  counted (run self ops) (gets_since_clear (rev ops ++ rops)).
Proof.
  induction ops as [| o ops IH]; intros self rops H; [exact H |].
  simpl. rewrite <- app_assoc. simpl. apply IH. now apply step_counted.
Qed.

Lemma run_max_size ops : forall self : @t V,
  max_size (run self ops) = max_size self.
Proof.
  unfold LRUCache.run.
  induction ops as [| o ops IH]; intros self; [reflexivity |].
  simpl. rewrite IH. apply step_max_size.
Qed.

(** X17. Statistics: on a cache that [__init__] built, after any
    operations, [get_stats] raises [ZeroDivisionError] when the capacity is
    0; with a capacity of one at least it reports hits and misses that add
    up to the calls of [get] since the last [clear], and a hit rate and a
    utilization between 0 and 1. *)
Theorem get_stats_fractions
    (capacity lifetime : Z) (ops : list (@op V)) :
  let c := run (init capacity lifetime) ops in
  (capacity = 0 -> get_stats c = None) /\
  (1 <= capacity ->
   exists st, get_stats c = Some st /\
     hits st + misses st = gets_since_clear (rev ops) /\
     (0 <= hit_rate st <= 1)%Q /\
     (0 <= utilization st <= 1)%Q).
Proof.
  intros c.
  assert (Hms : max_size c = capacity) by apply run_max_size.
  split.
  - intros ->. unfold get_stats. now rewrite Hms.
  - intros Hcap.
    destruct (run_invariant json_dumps_len ops (init capacity lifetime)
                (fun _ => 0%nat) 0%nat) as (_ & Hfit & _);
      simpl; try lia; [apply by_recency_nil |].
    fold c in Hfit. simpl in Hfit.
    pose proof (run_counted ops (init capacity lifetime) []) as Hcnt.
    rewrite app_nil_r in Hcnt. fold c in Hcnt.
    destruct Hcnt as (Hh & Hm & Hsum); [unfold counted; simpl; lia |].
    unfold get_stats. rewrite Hms.
    destruct (Z.eqb_spec capacity 0) as [-> | _]; [lia |].
    eexists. split; [reflexivity |]. simpl. split; [exact Hsum |].
    assert (Hq : forall a b : Z, 0 <= a -> a <= b -> 0 < b ->
                   (0 <= inject_Z a / inject_Z b <= 1)%Q).
    { intros a b Ha Hab Hb.
      assert (0 < inject_Z b)%Q by (change 0%Q with (inject_Z 0); now rewrite <- Zlt_Qlt).
      assert (0 <= inject_Z a)%Q by (change 0%Q with (inject_Z 0); now rewrite <- Zle_Qle).
      assert (inject_Z a <= inject_Z b)%Q by now rewrite <- Zle_Qle.
      split.
      - apply Qle_shift_div_l; [assumption | lra].
      - apply Qle_shift_div_r; [assumption | lra]. }
    split.
    + destruct (Z.ltb_spec 0 (_hits c + _misses c)); [apply Hq; lia |].
      split; [apply Qle_refl | discriminate].
    + apply Hq; lia.
Qed.

End LRUCacheRunFacts.

Lemma get_stats_fractions_witness :
  let c := LRUCache.run (fun _ : Z => Some 1) (LRUCache.__init__ 2 3600)
             [LRUCache.DoSet "a" 10 None 0; LRUCache.DoGet "a" 1;
              LRUCache.DoGet "b" 2] in
  (2 = 0 -> LRUCacheStats.get_stats c = None) /\
  (1 <= 2 ->
   exists st, LRUCacheStats.get_stats c = Some st /\
     LRUCacheStats.hits st + LRUCacheStats.misses st =
       LRUCacheStats.gets_since_clear
         (rev [LRUCache.DoSet "a" 10 None 0; LRUCache.DoGet "a" 1;
               LRUCache.DoGet "b" 2]) /\
     (0 <= LRUCacheStats.hit_rate st <= 1)%Q /\
     (0 <= LRUCacheStats.utilization st <= 1)%Q).
Proof.
  apply (get_stats_fractions (fun _ : Z => Some 1) 2 3600
           [LRUCache.DoSet "a" 10 None 0; LRUCache.DoGet "a" 1;
            LRUCache.DoGet "b" 2]).
Defined.

Section ResponseCacheFacts.
Import ResponseCache.

Lemma fold_headers_lookup (h : gmap string string) (names : list string) :
  forall (acc : gmap string string) (n : string),
    fold_left (fun acc name =>
                 match h !! name with
                 | Some v => <[name := v]> acc
                 | None => acc
                 end) names acc !! n =
    match (if decide (n ∈ names) then h !! n else None) with
    | Some v => Some v
    | None => acc !! n
    end.
Proof.
  induction names as [| x names IH]; intros acc n; cbn [fold_left].
  - destruct (decide (n ∈ [])) as [Hin | _]; [| reflexivity].
    now apply elem_of_nil in Hin.
  - rewrite IH.
    destruct (decide (n ∈ names)) as [Hin | Hout];
      destruct (decide (n ∈ x :: names)) as [Hin' | Hout'].
    + destruct (h !! n) as [v |] eqn:Hn; [reflexivity |].
      destruct (h !! x) as [w |] eqn:Hx; [| reflexivity].
      rewrite lookup_insert_ne; [reflexivity | congruence].
    + exfalso. apply Hout'. now right.
    + apply elem_of_cons in Hin' as [-> | Hin']; [| contradiction].
      destruct (h !! x) as [v |]; [apply lookup_insert_eq | reflexivity].
    + destruct (h !! x) as [w |]; [| reflexivity].
      rewrite lookup_insert_ne; [reflexivity |].
      intros ->. apply Hout'. now left.
Qed.

(** The selected headers are the headers of the caller with one of the
    three names. *)
Lemma cache_headers_lookup (headers : option (gmap string string)) (n : string) :
  cache_headers headers !! n =
  if decide (n ∈ cache_header_names) then headers ≫= (fun h => h !! n) else None.
Proof.
  unfold cache_headers. destruct headers as [h |]; cbn -[fold_left cache_header_names].
  - case_bool_decide as He.
    + subst h. rewrite !lookup_empty. now destruct (decide _).
    + rewrite fold_headers_lookup, lookup_empty.
      destruct (decide _); [now destruct (h !! n) | reflexivity].
  - rewrite lookup_empty. now destruct (decide _).
Qed.

Lemma cache_headers_agree (h1 h2 : option (gmap string string)) :
  (forall n : string, n ∈ cache_header_names ->
     h1 ≫= (fun h => h !! n) = h2 ≫= (fun h => h !! n)) ->
  cache_headers h1 = cache_headers h2.
Proof.
  intros H. apply map_eq. intros n. rewrite !cache_headers_lookup.
  destruct (decide _); [now apply H | reflexivity].
Qed.

Section Keys.
Variable json_dumps : string -> string -> gmap string string -> option string -> string.
Variable sha256_hex16 : string -> string.

(** X18. The key of a response: two requests with the same URL, method
    and body whose headers agree on [Accept], [Accept-Language] and
    [User-Agent] get the same key, whatever their other headers are;
    no headers, an empty dict and headers with none of the three names
    are the same. *)
Theorem make_key_ignores_other_headers
    (url method : string) (h1 h2 : option (gmap string string))
    (body : option string) :
  (forall n : string, n ∈ cache_header_names ->
     h1 ≫= (fun h => h !! n) = h2 ≫= (fun h => h !! n)) ->
  _make_key json_dumps sha256_hex16 url method h1 body =
  _make_key json_dumps sha256_hex16 url method h2 body.
Proof.
  intros H. unfold _make_key. now rewrite (cache_headers_agree h1 h2 H).
Qed.

Context {V : Type}.
Variable json_dumps_len : V -> option Z.

(** X19. A response that was cached is the response that is found, also
    under headers that differ outside the three names: with room for one
    entry at least and within the time to live, [get_response] returns
    what [set_response] stored. *)
Theorem get_response_after_set_response
    (self : @LRUCache.t V) (url method : string)
    (h1 h2 : option (gmap string string)) (body : option string)
    (response : V) (life : option Z) (now later : Q) :
  1 <= LRUCache.max_size self ->
  (forall n : string, n ∈ cache_header_names ->
     h1 ≫= (fun h => h !! n) = h2 ≫= (fun h => h !! n)) ->
  let seconds := match life with
                 | Some n => n
                 | None => LRUCache.default_ttl self
                 end in
  seconds <= 0 \/ (later - now <= inject_Z seconds)%Q ->
  fst (get_response json_dumps sha256_hex16
         (LRUCache.cache
            (set_response json_dumps sha256_hex16 json_dumps_len
               self url response method h1 body life now))
         url method h2 body later) = Some response.
Proof.
  intros Hm Hh seconds Hlive. unfold get_response, set_response, _make_key.
  rewrite (cache_headers_agree h1 h2 Hh).
  now apply set_then_get_live.
Qed.

End Keys.

End ResponseCacheFacts.

Lemma make_key_ignores_other_headers_witness :
  ResponseCache._make_key (fun u m h b => u) (fun x => x) "https://a.io/" "GET"
    (Some {[ "Accept"%string := "text/html"%string;
             "X-Trace"%string := "1"%string ]}) None =
  ResponseCache._make_key (fun u m h b => u) (fun x => x) "https://a.io/" "GET"
    (Some {[ "Accept"%string := "text/html"%string ]}) None.
Proof.
  apply (make_key_ignores_other_headers (fun u m h b => u) (fun x => x)
           "https://a.io/" "GET"
           (Some {[ "Accept"%string := "text/html"%string;
                    "X-Trace"%string := "1"%string ]})
           (Some {[ "Accept"%string := "text/html"%string ]}) None).
  intros n Hn. simpl.
  unfold ResponseCache.cache_header_names in Hn.
  repeat (apply elem_of_cons in Hn as [-> | Hn]; [reflexivity |]).
  now apply elem_of_nil in Hn.
Defined.

Lemma get_response_after_set_response_witness :
  fst (ResponseCache.get_response (fun u m h b => u) (fun x => x)
         (LRUCache.cache
            (ResponseCache.set_response (fun u m h b => u) (fun x => x)
               (fun _ : Z => Some 1) (LRUCache.__init__ 10 3600)
               "https://a.io/" 200 "GET" None None None 0))
         "https://a.io/" "GET" (Some ∅) None 60) = Some 200.
Proof.
  apply (get_response_after_set_response (fun u m h b => u) (fun x => x)
           (fun _ : Z => Some 1) (LRUCache.__init__ 10 3600)
           "https://a.io/" "GET" None (Some ∅) None 200 None 0 60).
  - simpl; lia.
  - intros n _. simpl. now rewrite lookup_empty.
  - right. vm_compute. discriminate.
Defined.

Section TieredCacheFacts.
Import TieredCache.
Context {V : Type}.
Variable json_dumps_len : V -> option Z.
Variable is_None : V -> bool.

(** X20. The second and third tiers are inert: whether or not they were
    given, [get] returns what the memory cache returns (nothing for a
    cached [None]) and changes the memory cache as one lookup does, without
    any promotion; [set] is the [set] of the memory cache. *)
Theorem tiered_cache_is_memory_cache
    (self : @t V) (key : string) (value : V) (ttl : option Z) (now later : Q) :
  get json_dumps_len is_None self key now later =
    (not_None is_None (fst (LRUCache.get (l1 self) key now)),
     with_l1 self (snd (LRUCache.get (l1 self) key now))) /\
  set json_dumps_len self key value ttl now =
    with_l1 self
      (LRUCache.cache (LRUCache.set json_dumps_len (l1 self) key value ttl now)).
Proof.
  split.
  - unfold get, with_l1.
    destruct (LRUCache.get (l1 self) key now) as [value' c]. cbn [fst snd l1 l2 l3].
    destruct (not_None is_None value'); [reflexivity |].
    destruct (l2 self), (l3 self); reflexivity.
  - unfold set, _set_to_l2, _set_to_l3, with_l1. cbn [l1 l2 l3].
    destruct (l2 self), (l3 self); reflexivity.
Qed.

End TieredCacheFacts.

(* ================================================================= *)
(** * Further properties of the proxy pool *)

Section ProxyRecordFacts.
Import ProxyManager ProxyRotation.

Lemma on_record_counters mf u p ev :
  counters_ok p -> counters_ok (on_record mf u p ev).
Proof.
  unfold counters_ok. intros (H1 & H2 & H3).
  destruct ev as [v rt | v | v [rt |]]; simpl;
    destruct (decide (v = u)); simpl; auto; repeat split; lia.
Qed.

Lemma on_record_url mf u p ev : url (on_record mf u p ev) = url p.
Proof.
  destruct ev as [v rt | v | v [rt |]]; simpl;
    destruct (decide (v = u)); reflexivity.
Qed.

Lemma on_record_avg_within mf u p ev bound :
  (0 <= avg_response_time p <= bound)%Q ->
  match recorded_time ev with
  | Some rt => (0 <= rt /\ rt <= bound)%Q
  | None => True
  end ->
  (0 <= avg_response_time (on_record mf u p ev) <= bound)%Q.
Proof.
  intros Hp Hev.
  destruct ev as [v rt | v | v [rt |]]; simpl in *;
    destruct (decide (v = u)); simpl; try exact Hp; split; lra.
Qed.

Lemma fold_record_invariants mf u bound evs : forall p,
  counters_ok p -> (0 <= avg_response_time p <= bound)%Q ->
  times_within bound evs ->
  let p' := fold_left (on_record mf u) evs p in
  counters_ok p' /\ (0 <= avg_response_time p' <= bound)%Q /\ url p' = url p.
Proof.
  induction evs as [| ev evs IH]; intros p Hc Ha Ht; simpl; [auto |].
  destruct (IH (on_record mf u p ev)) as (A & B & C).
  - now apply on_record_counters.
  - apply on_record_avg_within; [exact Ha | exact (Forall_inv Ht)].
  - exact (Forall_inv_tail Ht).
  - rewrite on_record_url in C. auto.
Qed.

Lemma success_rate_fraction p :
  counters_ok p -> (0 <= success_rate p <= 1)%Q.
Proof.
  intros (H1 & H2 & H3). unfold success_rate.
  destruct (Z.eqb_spec (total_requests p) 0) as [H0 | Hn].
  - split; lra.
  - assert (Ht : (0 < inject_Z (total_requests p))%Q).
    { change 0%Q with (inject_Z 0). rewrite <- Zlt_Qlt. lia. }
    assert (Hs : (0 <= inject_Z (success_count p))%Q).
    { change 0%Q with (inject_Z 0). now rewrite <- Zle_Qle. }
    assert (Hle : (inject_Z (success_count p) <= inject_Z (total_requests p))%Q).
    { rewrite <- Zle_Qle. lia. }
    split.
    + apply Qle_shift_div_l; [exact Ht | lra].
    + apply Qle_shift_div_r; [exact Ht | lra].
Qed.

(** X21. The bookkeeping of a record: in a pool built by [__init__], after
    any reports and probes whose response times are between 0 and [bound],
    every record has [total_requests = success_count + failure_count], a
    success rate and a score between 0 and 1, an average response time
    between 0 and [bound], and the URL under which the pool holds it. *)
Theorem record_bookkeeping
    (urls : list string) (mf : Z) (t0 bound : Q) (evs : list event)
    (u : string) (p : ProxyInfo) :
  times_within bound evs ->
  proxies (ProxyManager.run (ProxyManager.__init__ urls mf t0) evs) !! u = Some p ->
  total_requests p = success_count p + failure_count p /\
  (0 <= success_rate p <= 1)%Q /\
  (0 <= score p <= 1)%Q /\
  (0 <= avg_response_time p <= Qmax 0 bound)%Q /\
  url p = u.
Proof.
  intros Ht Hp. rewrite run_lookup in Hp.
  destruct (proxies (ProxyManager.__init__ urls mf t0) !! u) as [q |] eqn:Hq;
    [| discriminate].
  simpl in Hp. injection Hp as <-. apply init_lookup in Hq. subst q.
  assert (Ht' : times_within (Qmax 0 bound) evs).
  { unfold times_within in *. eapply Forall_impl; [exact Ht |].
    intros ev Hev. cbv beta in Hev |- *.
    destruct (recorded_time ev); [| exact I].
    destruct Hev as [A B]. split; [exact A |].
    eapply Qle_trans; [exact B | apply Q.le_max_r]. }
  destruct (fold_record_invariants mf u (Qmax 0 bound) evs (new_proxy u t0))
    as (Hc & Ha & Hu); try exact Ht'.
  { unfold counters_ok; simpl. lia. }
  { simpl. split; [apply Qle_refl | apply Q.le_max_l]. }
  set (p := fold_left (on_record mf u) evs (new_proxy u t0)) in *.
  pose proof (success_rate_fraction p Hc) as Hsr.
  split; [apply Hc |]. split; [exact Hsr |]. split; [| split; [exact Ha | exact Hu]].
  unfold score.
  assert (Hmax : (0 <= Qmax 0 (1 - avg_response_time p / 10) <= 1)%Q).
  { split; [apply Q.le_max_l |]. apply Q.max_lub; [lra |].
    assert (0 <= avg_response_time p / 10)%Q by (apply Qle_shift_div_l; lra).
    lra. }
  split; lra.
Qed.

Lemma record_bookkeeping_witness :
  let p := mkProxyInfo "http://p1:8080" HEALTHY 1 1 (10 # 25) 0 2 in
  total_requests p = success_count p + failure_count p /\
  (0 <= success_rate p <= 1)%Q /\
  (0 <= score p <= 1)%Q /\
  (0 <= avg_response_time p <= Qmax 0 2)%Q /\
  url p = "http://p1:8080"%string.
Proof.
  apply (record_bookkeeping ["http://p1:8080"%string] 3 0 2
           [Success "http://p1:8080" 2; Failure "http://p1:8080"]
           "http://p1:8080").
  - repeat constructor; vm_compute; discriminate.
  - vm_compute. reflexivity.
Defined.

End ProxyRecordFacts.

Section ProxyRotationFacts.
Import ProxyManager ProxyRotation.

Lemma last_cons_any {A} (l : list A) : forall a d,
  List.last (a :: l) d = List.last l a.
Proof.
  induction l as [| b l IH]; intros a d; [reflexivity |].
  change (List.last (b :: l) d = List.last (b :: l) a). now rewrite !IH.
Qed.

(** The weights [score / total_score] add up to one. *)
Lemma accumulate_weights (total : Q) (scores : list Q) : forall a b : Q,
  ~ (total == 0)%Q -> (a == b / total)%Q ->
  (List.last (accumulate a (map (fun s => s / total) scores)) a ==
   fold_left Qplus scores b / total)%Q.
Proof.
  induction scores as [| s scores IH]; intros a b Ht Hab; [exact Hab |].
  cbn [map accumulate fold_left]. rewrite last_cons_any.
  apply IH; [exact Ht |]. rewrite Hab. field. exact Ht.
Qed.

Lemma bisect_le cum x : forall hi, (bisect cum x hi <= hi)%nat.
Proof.
  induction cum as [| c cum IH]; intros [| hi]; simpl; try lia.
  destruct (Qle_bool c x); [| lia]. specialize (IH hi). lia.
Qed.

Lemma choice_member (seq : list ProxyInfo) pick :
  seq <> [] -> exists info, choice seq pick = Some info /\ In info seq.
Proof.
  intros Hne. unfold choice.
  assert (Hlt : (pick mod length seq < length seq)%nat).
  { apply Nat.mod_upper_bound. destruct seq; [contradiction | simpl; lia]. }
  destruct (lookup_lt_is_Some_2 seq _ Hlt) as [info Hi].
  exists info. split; [exact Hi |].
  apply list_elem_of_In. eapply list_elem_of_lookup_2. exact Hi.
Qed.

Lemma health_based_member (proxies : list ProxyInfo) pick u :
  proxies <> [] ->
  exists info, _health_based_select proxies pick u = inr info /\ In info proxies.
Proof.
  intros Hne. unfold _health_based_select.
  destruct (Qeq_bool _ _) eqn:Hz.
  - destruct (choice_member proxies pick Hne) as (info & Hc & Hin).
    rewrite Hc. eauto.
  - apply Qeq_bool_neq in Hz. unfold choices.
    set (total := fold_left Qplus (map score proxies) 0%Q) in *.
    pose proof (accumulate_weights total (map score proxies) 0 0 Hz) as Hsum.
    assert (Hone : (List.last (accumulate 0 (map (fun s => s / total) (map score proxies))) 0
                    == 1)%Q).
    { rewrite Hsum; [| field; exact Hz]. fold total. field. exact Hz. }
    destruct (Qle_bool _ 0) eqn:Hle.
    { apply Qle_bool_iff in Hle. rewrite Hone in Hle. lra. }
    set (cum := accumulate 0 (map (fun s => (s / total)%Q) (map score proxies))) in *.
    pose proof (bisect_le cum (u * List.last cum 0%Q)%Q (length proxies - 1)) as Hbi.
    assert (Hlt : (bisect cum (u * List.last cum 0%Q)%Q (length proxies - 1)
                   < length proxies)%nat).
    { destruct proxies; [contradiction | simpl in *; lia]. }
    destruct (lookup_lt_is_Some_2 proxies _ Hlt) as [info Hi].
    rewrite Hi. exists info. split; [reflexivity |].
    apply list_elem_of_In. eapply list_elem_of_lookup_2. exact Hi.
Qed.

Lemma round_robin_member (self : t) (proxies : list ProxyInfo) :
  proxies <> [] ->
  exists info, fst (_round_robin_select self proxies) = Some info /\ In info proxies.
Proof.
  intros Hne. unfold _round_robin_select. simpl.
  assert (Hn : 0 < Z.of_nat (length proxies)).
  { destruct proxies; [contradiction | simpl; lia]. }
  pose proof (Z.mod_pos_bound (_current_index self) _ Hn) as Hb.
  assert (Hlt : (Z.to_nat (_current_index self mod Z.of_nat (length proxies))
                 < length proxies)%nat) by lia.
  destruct (lookup_lt_is_Some_2 proxies _ Hlt) as [info Hi].
  exists info. split; [exact Hi |].
  apply list_elem_of_In. eapply list_elem_of_lookup_2. exact Hi.
Qed.

Lemma get_proxy_cases (self : t) pick u :
  (healthy_proxies self = [] /\ fst (get_proxy self pick u) = NoProxy) \/
  (exists info, In info (healthy_proxies self) /\
                fst (get_proxy self pick u) = Selected (url info)).
Proof.
  unfold get_proxy. destruct (healthy_proxies self) as [| first rest] eqn:Hh.
  - left. split; reflexivity.
  - right. assert (Hne : first :: rest <> []) by discriminate.
    destruct (String.eqb _ "round_robin").
    { destruct (round_robin_member self (first :: rest) Hne) as (info & Hs & Hin).
      destruct (_round_robin_select self (first :: rest)) as [o self'].
      simpl in Hs. subst o. eauto. }
    destruct (String.eqb _ "random").
    { destruct (choice_member (first :: rest) pick Hne) as (info & Hs & Hin).
      rewrite Hs. eauto. }
    destruct (String.eqb _ "health_based").
    { destruct (health_based_member (first :: rest) pick u Hne) as (info & Hs & Hin).
      rewrite Hs. eauto. }
    exists first. split; [now left | reflexivity].
Qed.

Lemma healthy_not_failed (self : t) info :
  In info (healthy_proxies self) ->
  health info <> FAILED /\
  exists k : string, k ∈ order self /\ proxies (pool self) !! k = Some info.
Proof.
  unfold healthy_proxies. intros Hin. apply List.filter_In in Hin as [Hin Hh].
  split; [intros Hf; now rewrite Hf in Hh |].
  unfold values in Hin. apply list_elem_of_In in Hin.
  apply list_elem_of_omap in Hin as (k & Hk & Hl). eauto.
Qed.

Lemma pool_run_app (pm : ProxyManager.t) evs1 evs2 :
  ProxyManager.run pm (evs1 ++ evs2) =
  ProxyManager.run (ProxyManager.run pm evs1) evs2.
Proof. unfold ProxyManager.run. apply fold_left_app. Qed.

(** X22. Selection: with every strategy and every draw of the random
    generator, [get_proxy] returns [None] when no record of the pool is
    eligible, and otherwise the URL of a record of the pool whose health is
    not [FAILED]; it raises nothing. *)
Theorem get_proxy_selects_eligible (self : t) (pick : nat) (u : Q) :
  (healthy_proxies self = [] /\ fst (get_proxy self pick u) = NoProxy) \/
  (exists (k : string) info,
      k ∈ order self /\ proxies (pool self) !! k = Some info /\
      health info <> FAILED /\
      fst (get_proxy self pick u) = Selected (url info)).
Proof.
  destruct (get_proxy_cases self pick u) as [H | (info & Hin & Hs)]; [now left |].
  right. destruct (healthy_not_failed self info Hin) as (Hh & k & Hk & Hl).
  exists k, info. auto.
Qed.

(** X23. A failed proxy is out of the rotation for good: in a pool built
    by [__init__], once the record of a URL is [FAILED], no [get_proxy]
    after any later reports and probes returns that URL, whatever the
    strategy, the counter and the draws are. *)
Theorem failed_proxy_never_selected
    (urls : list string) (strategy : string) (mf : Z) (t0 : Q)
    (evs later : list event) (index : Z) (pick : nat) (u : Q)
    (bad : string) (p : ProxyInfo) :
  proxies (ProxyManager.run (ProxyManager.__init__ urls mf t0) evs) !! bad = Some p ->
  health p = FAILED ->
  let self :=
    {| pool := ProxyManager.run (ProxyManager.__init__ urls mf t0) (evs ++ later);
       order := dict_keys urls;
       rotation_strategy := strategy;
       _current_index := index |} in
  fst (get_proxy self pick u) <> Selected bad.
Proof.
  intros Hp Hf self Hsel.
  destruct (get_proxy_cases self pick u) as [[_ Hn] | (info & Hin & Hs)];
    [congruence |].
  rewrite Hs in Hsel. injection Hsel as Hurl.
  destruct (healthy_not_failed self info Hin) as (Hh & k & _ & Hl).
  cbn [pool self] in Hl. rewrite pool_run_app in Hl.
  assert (Hmf : max_failures (ProxyManager.run (ProxyManager.__init__ urls mf t0) evs) = mf).
  { now rewrite run_max_failures. }
  (* the record under [k] carries the URL [k] *)
  assert (Hk : url info = k).
  { rewrite run_lookup, Hmf in Hl.
    destruct (proxies (ProxyManager.run (ProxyManager.__init__ urls mf t0) evs) !! k)
      as [q |] eqn:Hq; [| discriminate].
    simpl in Hl. injection Hl as <-.
    rewrite run_lookup in Hq.
    destruct (proxies (ProxyManager.__init__ urls mf t0) !! k) as [q0 |] eqn:Hq0;
      [| discriminate].
    simpl in Hq. injection Hq as <-. apply init_lookup in Hq0. subst q0.
    assert (Hfold : forall evs' q, url (fold_left (on_record mf k) evs' q) = url q).
    { induction evs' as [| ev evs' IH]; intros q; [reflexivity |].
      simpl. rewrite IH. apply on_record_url. }
    rewrite !Hfold. reflexivity. }
  rewrite Hurl in Hk. subst k.
  rewrite run_lookup, Hp, Hmf in Hl. simpl in Hl. injection Hl as <-.
  apply Hh. apply fold_stays_failed; [exact Hf |].
  (* a failed record has reached the threshold *)
  rewrite run_lookup in Hp.
  destruct (proxies (ProxyManager.__init__ urls mf t0) !! bad) as [q0 |] eqn:Hq0;
    [| discriminate].
  simpl in Hp. injection Hp as <-. apply init_lookup in Hq0. subst q0.
  apply (fold_failed_by_count mf bad evs (new_proxy bad t0)); [| exact Hf].
  intros Hbad. discriminate.
Qed.

End ProxyRotationFacts.

Lemma failed_proxy_never_selected_witness :
  fst (ProxyRotation.get_proxy
         {| ProxyRotation.pool :=
              ProxyManager.run
                (ProxyManager.__init__ ["http://a:1"; "http://b:1"]%string 1 0)
                ([ProxyManager.Failure "http://a:1"] ++
                 [ProxyManager.Success "http://a:1" 1]);
            ProxyRotation.order :=
              ProxyRotation.dict_keys ["http://a:1"; "http://b:1"]%string;
            ProxyRotation.rotation_strategy := "round_robin";
            ProxyRotation._current_index := 0 |} 0 0)
  <> ProxyRotation.Selected "http://a:1".
Proof.
  apply (failed_proxy_never_selected ["http://a:1"; "http://b:1"]%string
           "round_robin" 1 0 [ProxyManager.Failure "http://a:1"]
           [ProxyManager.Success "http://a:1" 1] 0 0 0 "http://a:1"
           (ProxyManager.mkProxyInfo "http://a:1" ProxyManager.FAILED 0 1 0 0 1)).
  - vm_compute. reflexivity.
  - reflexivity.
Defined.

Section ProxyRoundRobinFacts.
Import ProxyManager ProxyRotation.

Lemma get_proxies_round_robin (pick : nat) (u : Q) (m : nat) : forall self : t,
  rotation_strategy self = "round_robin"%string ->
  healthy_proxies self <> [] ->
  get_proxies self m pick u =
  (fun j : nat =>
     match healthy_proxies self
           !! Z.to_nat ((_current_index self + Z.of_nat j)
                        mod Z.of_nat (length (healthy_proxies self))) with
     | Some info => Selected (url info)
     | None => IndexError
     end) <$> seq 0 m.
Proof.
  induction m as [| m IH]; intros self Hrr Hne; [reflexivity |].
  cbn [get_proxies]. unfold get_proxy.
  destruct (healthy_proxies self) as [| first rest] eqn:Hh; [contradiction |].
  rewrite Hrr. cbn [String.eqb Ascii.eqb Bool.eqb]. unfold _round_robin_select.
  set (self' := {| pool := pool self; order := order self;
                   rotation_strategy := rotation_strategy self;
                   _current_index := _current_index self + 1 |}).
  assert (Hh' : healthy_proxies self' = first :: rest) by exact Hh.
  assert (Htail : get_proxies self' m pick u =
                  (fun j : nat =>
                     match (first :: rest)
                           !! Z.to_nat ((_current_index self + Z.of_nat (S j))
                                        mod Z.of_nat (length (first :: rest))) with
                     | Some info => Selected (url info)
                     | None => IndexError
                     end) <$> seq 0 m).
  { rewrite (IH self' Hrr); [| rewrite Hh'; discriminate].
    rewrite Hh'. apply list_fmap_ext. intros _ j _. cbn [_current_index self'].
    replace (_current_index self + 1 + Z.of_nat j)
      with (_current_index self + Z.of_nat (S j)) by lia.
    reflexivity. }
  cbn [seq fmap list_fmap]. rewrite Z.add_0_r.
  rewrite <- seq_shift. rewrite <- list_fmap_compose.
  destruct ((first :: rest) !! _) as [info |]; cbn [fst snd];
    fold self'; rewrite Htail; reflexivity.
Qed.

(** X24. Round robin: on a pool whose records do not change in between,
    as many calls of [get_proxy] as there are eligible records return every
    eligible record once, in the order of the dict, starting at the record
    that the counter points to. *)
Theorem round_robin_visits_all (self : t) (pick : nat) (u : Q) :
  rotation_strategy self = "round_robin"%string ->
  let eligible := healthy_proxies self in
  get_proxies self (length eligible) pick u =
  (fun info => Selected (url info))
    <$> rotate (Z.to_nat (_current_index self mod Z.of_nat (length eligible)))
               eligible.
Proof.
  intros Hrr eligible.
  destruct (decide (eligible = [])) as [He | Hne].
  { unfold eligible in *. rewrite He. unfold rotate.
    rewrite drop_nil, take_nil. reflexivity. }
  rewrite (get_proxies_round_robin pick u _ self Hrr Hne). fold eligible.
  assert (Hn : 0 < Z.of_nat (length eligible)).
  { destruct eligible; [contradiction | simpl; lia]. }
  apply list_eq. intros j. rewrite !list_lookup_fmap.
  destruct (decide (j < length eligible)%nat) as [Hj | Hj].
  - rewrite lookup_seq_lt by exact Hj. rewrite lookup_rotate_r by exact Hj.
    unfold rotate_nat_add. rewrite Z2Nat.id by (apply Z.mod_pos_bound; exact Hn).
    rewrite Zplus_mod_idemp_l. cbn [fmap option_fmap option_map Nat.add].
    pose proof (Z.mod_pos_bound (_current_index self + Z.of_nat j) _ Hn) as Hb.
    assert (Hlt : (Z.to_nat ((_current_index self + Z.of_nat j)
                             mod Z.of_nat (length eligible)) < length eligible)%nat)
      by lia.
    destruct (lookup_lt_is_Some_2 eligible _ Hlt) as [info Hi].
    rewrite Hi. reflexivity.
  - rewrite lookup_seq_ge by lia.
    rewrite lookup_ge_None_2; [reflexivity |]. rewrite length_rotate. lia.
Qed.

Lemma round_robin_visits_all_witness :
  let self := ProxyRotation.__init__ ["http://a:1"; "http://b:1"]%string
                "round_robin" 3 0 in
  get_proxies self 2 0 0 =
  (fun info => Selected (url info)) <$> rotate (Z.to_nat (0 mod 2)) (healthy_proxies self).
Proof.
  apply (round_robin_visits_all
           (ProxyRotation.__init__ ["http://a:1"; "http://b:1"]%string
              "round_robin" 3 0) 0 0).
  reflexivity.
Defined.

Lemma count_health_partition (l : list ProxyInfo) :
  count_health HEALTHY l + count_health DEGRADED l + count_health FAILED l =
  Z.of_nat (length l).
Proof.
  unfold count_health. induction l as [| p l IH]; [reflexivity |].
  simpl. destruct (health p); simpl length; lia.
Qed.

Lemma dict_keys_spec (urls : list string) :
  NoDup (dict_keys urls) /\ forall x, x ∈ dict_keys urls <-> x ∈ urls.
Proof.
  unfold dict_keys.
  assert (H : forall acc : list string, NoDup acc ->
            NoDup (fold_left (fun acc u => if bool_decide (u ∈ acc) then acc
                                           else acc ++ [u]) urls acc) /\
            forall x, x ∈ fold_left (fun acc u => if bool_decide (u ∈ acc) then acc
                                                  else acc ++ [u]) urls acc
                      <-> x ∈ acc \/ x ∈ urls).
  { induction urls as [| u urls IH]; intros acc Hnd; simpl.
    - split; [exact Hnd |]. intros x. rewrite elem_of_nil. tauto.
    - case_bool_decide as Hu.
      + destruct (IH acc Hnd) as [A B]. split; [exact A |].
        intros x. rewrite B, elem_of_cons. split; [tauto |].
        intros [? | [-> | ?]]; auto.
      + destruct (IH (acc ++ [u])) as [A B].
        { apply NoDup_app. split; [exact Hnd |]. split; [| apply NoDup_singleton].
          intros x Hx Hx'. apply list_elem_of_singleton in Hx' as ->. contradiction. }
        split; [exact A |]. intros x.
        rewrite B, elem_of_app, list_elem_of_singleton, elem_of_cons. tauto. }
  destruct (H [] (NoDup_nil_2)) as [A B]. split; [exact A |].
  intros x. rewrite B, elem_of_nil. tauto.
Qed.

Lemma init_is_Some (urls : list string) mf t0 (x : string) :
  is_Some (proxies (ProxyManager.__init__ urls mf t0) !! x) <-> x ∈ urls.
Proof.
  unfold ProxyManager.__init__; simpl.
  assert (H : forall m : gmap string ProxyInfo,
            is_Some (fold_left (fun m u => <[u := new_proxy u t0]> m) urls m !! x)
            <-> is_Some (m !! x) \/ x ∈ urls).
  { induction urls as [| u urls IH]; intros m; simpl.
    - rewrite elem_of_nil. tauto.
    - rewrite IH, elem_of_cons, lookup_insert_is_Some. 
      destruct (decide (u = x)); intuition congruence. }
  rewrite H, lookup_empty. split; [intros [[? ?] | ?]; [discriminate | assumption] | auto].
Qed.

Lemma length_omap_total {A B} (f : A -> option B) (l : list A) :
  (forall x, x ∈ l -> is_Some (f x)) -> length (omap f l) = length l.
Proof.
  induction l as [| a l IH]; intros H; [reflexivity |].
  change (omap f (a :: l)) with (match f a with
                                 | Some y => y :: omap f l
                                 | None => omap f l
                                 end).
  destruct (H a) as [b Hb]; [now left |]. rewrite Hb. cbn [length].
  f_equal. apply IH. intros x Hx. apply H. now right.
Qed.

(** X25. The statistics of the pool: for a manager built by [__init__],
    after any reports and probes, [get_stats] counts every record once:
    healthy, degraded and failed add up to [total_proxies], the number of
    distinct URLs the manager was given. *)
Theorem get_stats_partition
    (urls : list string) (strategy : string) (mf : Z) (t0 : Q)
    (evs : list event) :
  let st := get_stats (ProxyRotation.run
                         (ProxyRotation.__init__ urls strategy mf t0) evs) in
  healthy st + degraded st + failed st = total_proxies st /\
  total_proxies st = Z.of_nat (length (dict_keys urls)).
Proof.
  intros st. unfold st, get_stats. cbn [total_proxies healthy degraded failed].
  rewrite count_health_partition.
  destruct (dict_keys_spec urls) as [Hnd Hmem].
  set (pm := ProxyManager.run (ProxyManager.__init__ urls mf t0) evs).
  assert (Hsome : forall x : string, is_Some (proxies pm !! x) <-> x ∈ urls).
  { intros x. unfold pm. rewrite run_lookup, <- init_is_Some.
    rewrite fmap_is_Some. reflexivity. }
  assert (Hsize : size (proxies pm) = length (dict_keys urls)).
  { rewrite <- size_dom, <- (size_list_to_set (C := gset string)) by exact Hnd.
    f_equal. apply set_eq. intros x.
    rewrite elem_of_dom, elem_of_list_to_set, Hsome, Hmem. reflexivity. }
  assert (Hval : length (values (ProxyRotation.run
                                   (ProxyRotation.__init__ urls strategy mf t0) evs))
                 = length (dict_keys urls)).
  { unfold values. cbn [pool order ProxyRotation.run ProxyRotation.__init__].
    apply length_omap_total. intros x Hx. fold pm. apply Hsome. now apply Hmem. }
  cbn [pool ProxyRotation.run ProxyRotation.__init__]. fold pm.
  rewrite Hval, Hsize. split; reflexivity.
Qed.

End ProxyRoundRobinFacts.

(* ================================================================= *)
(** * Further properties of the user agents and the headers *)

Section UserAgentFacts.
Import UserAgentManager UserAgentRuns.

Lemma USER_AGENTS_NoDup : NoDup USER_AGENTS.
Proof. apply (bool_decide_unpack _). vm_compute. exact I. Qed.

Lemma add_user_agent_spec (self : t) (ua : string) :
  NoDup (agents self) ->
  NoDup (agents (add_user_agent self ua)) /\
  ua ∈ agents (add_user_agent self ua) /\
  (exists added, agents (add_user_agent self ua) = agents self ++ added) /\
  rotation_strategy (add_user_agent self ua) = rotation_strategy self /\
  _current_index (add_user_agent self ua) = _current_index self.
Proof.
  intros Hnd. unfold add_user_agent. case_bool_decide as Hin; simpl.
  - split; [exact Hnd |]. split; [exact Hin |].
    split; [exists []; now rewrite app_nil_r | split; reflexivity].
  - split.
    { apply NoDup_app. split; [exact Hnd |]. split; [| apply NoDup_singleton].
      intros x Hx Hx'. apply list_elem_of_singleton in Hx' as ->. contradiction. }
    split; [apply elem_of_app; right; now apply list_elem_of_singleton |].
    split; [now exists [ua] | split; reflexivity].
Qed.

(** X26. Registering user agents: after any calls of [add_user_agent],
    the pool has no string twice, it starts with the ten built-in agents in
    their order, and it holds every agent that was added. *)
Theorem add_user_agent_deduplicates (strategy : string) (uas : list string) :
  let self := add_all (__init__ strategy) uas in
  NoDup (agents self) /\
  (exists added, agents self = USER_AGENTS ++ added) /\
  (forall ua, ua ∈ uas -> ua ∈ agents self).
Proof.
  assert (H : forall uas (self : t), NoDup (agents self) ->
            NoDup (agents (add_all self uas)) /\
            (exists added, agents (add_all self uas) = agents self ++ added) /\
            (forall ua, ua ∈ uas -> ua ∈ agents (add_all self uas))).
  { clear. intros uas. unfold add_all.
    induction uas as [| x uas IH]; intros self Hnd; simpl.
    - split; [exact Hnd |]. split; [exists []; now rewrite app_nil_r |].
      intros ua Hua. now apply elem_of_nil in Hua.
    - destruct (add_user_agent_spec self x Hnd) as (A & B & (a1 & C) & _).
      destruct (IH (add_user_agent self x) A) as (D & (a2 & E) & F).
      split; [exact D |]. split.
      + exists (a1 ++ a2). rewrite E, C. now rewrite app_assoc.
      + intros ua Hua. apply elem_of_cons in Hua as [-> | Hua]; [| now apply F].
        rewrite E. apply elem_of_app. now left. }
  intros self. apply (H uas (__init__ strategy)). apply USER_AGENTS_NoDup.
Qed.

Lemma gets_round_robin (pick : nat) (m : nat) : forall self : t,
  rotation_strategy self = "round_robin"%string ->
  gets self m pick =
  (fun j : nat =>
     nth (Z.to_nat ((_current_index self + Z.of_nat j)
                    mod Z.of_nat (length (agents self))))
         (agents self) ""%string) <$> seq 0 m.
Proof.
  induction m as [| m IH]; intros self Hrr; [reflexivity |].
  set (self' := {| agents := agents self;
                   rotation_strategy := rotation_strategy self;
                   _current_index := _current_index self + 1 |}).
  assert (Hget : get self pick =
                 (nth (Z.to_nat (_current_index self
                                 mod Z.of_nat (length (agents self))))
                      (agents self) ""%string, self')).
  { unfold get. rewrite (proj2 (String.eqb_eq _ _) Hrr). reflexivity. }
  cbn [gets]. rewrite Hget. cbn [fst snd].
  rewrite (IH self' Hrr). cbn [agents _current_index self' seq fmap list_fmap].
  rewrite Z.add_0_r. f_equal.
  rewrite <- seq_shift, <- list_fmap_compose. apply list_fmap_ext.
  intros _ j _. cbn [compose].
  replace (_current_index self + 1 + Z.of_nat j)
    with (_current_index self + Z.of_nat (S j)) by lia.
  reflexivity.
Qed.

(** X27. Round robin over the user agents: as many calls of [get] as the
    pool has agents return every agent once, in the order of the pool,
    starting at the agent that the counter points to. *)
Theorem user_agents_round_robin (self : t) (pick : nat) :
  rotation_strategy self = "round_robin"%string ->
  gets self (length (agents self)) pick =
  rotate (Z.to_nat (_current_index self mod Z.of_nat (length (agents self))))
         (agents self).
Proof.
  intros Hrr. rewrite (gets_round_robin pick _ self Hrr).
  destruct (agents self) as [| a l] eqn:Ha.
  { unfold rotate. rewrite drop_nil, take_nil. reflexivity. }
  set (n := length (a :: l)).
  assert (Hn : 0 < Z.of_nat n) by (unfold n; simpl; lia).
  apply list_eq. intros j. rewrite list_lookup_fmap.
  destruct (decide (j < n)%nat) as [Hj | Hj].
  - rewrite lookup_seq_lt by exact Hj. rewrite lookup_rotate_r by exact Hj.
    unfold rotate_nat_add. fold n.
    rewrite Z2Nat.id by (apply Z.mod_pos_bound; exact Hn).
    rewrite Zplus_mod_idemp_l. cbn [fmap option_fmap option_map Nat.add].
    pose proof (Z.mod_pos_bound (_current_index self + Z.of_nat j) _ Hn) as Hb.
    assert (Hlt : (Z.to_nat ((_current_index self + Z.of_nat j) mod Z.of_nat n) < n)%nat)
      by lia.
    destruct (lookup_lt_is_Some_2 (a :: l) _ Hlt) as [x Hx].
    rewrite Hx. f_equal. rewrite nth_lookup, Hx. reflexivity.
  - rewrite lookup_seq_ge by lia.
    rewrite lookup_ge_None_2; [reflexivity |]. rewrite length_rotate. fold n. lia.
Qed.

Lemma user_agents_round_robin_witness :
  gets (__init__ "round_robin") (length USER_AGENTS) 0 =
  rotate (Z.to_nat (0 mod Z.of_nat (length USER_AGENTS))) USER_AGENTS.
Proof.
  apply (user_agents_round_robin (__init__ "round_robin") 0). reflexivity.
Defined.

Lemma get_member (self : t) (pick : nat) :
  agents self <> [] -> fst (get self pick) ∈ agents self.
Proof.
  intros Hne. unfold get.
  assert (Hn : (0 < length (agents self))%nat).
  { destruct (agents self); [contradiction | simpl; lia]. }
  destruct (String.eqb _ _); cbn [fst]; rewrite nth_lookup.
  - pose proof (Z.mod_pos_bound (_current_index self) (Z.of_nat (length (agents self))))
      as Hb.
    assert (Hlt : (Z.to_nat (_current_index self mod Z.of_nat (length (agents self)))
                   < length (agents self))%nat) by lia.
    destruct (lookup_lt_is_Some_2 _ _ Hlt) as [x Hx]. rewrite Hx. simpl.
    eapply list_elem_of_lookup_2. exact Hx.
  - assert (Hlt : (pick mod length (agents self) < length (agents self))%nat).
    { apply Nat.mod_upper_bound. lia. }
    destruct (lookup_lt_is_Some_2 _ _ Hlt) as [x Hx]. rewrite Hx. simpl.
    eapply list_elem_of_lookup_2. exact Hx.
Qed.

End UserAgentFacts.

Section HeaderGeneratorMoreFacts.
Import HeaderGenerator.
Variable urlparse : string -> string * string.

Lemma defaults_no_referer ua : defaults ua !! "Referer"%string = None.
Proof. reflexivity. Qed.

Lemma generate_lookup_cases
    (manager : UserAgentManager.t) (pick : nat) (url : string)
    (custom_headers : option (gmap string string)) (name : string) :
  fst (generate urlparse manager pick url custom_headers) !! name =
  match custom_headers ≫= (fun h => h !! name) with
  | Some v => Some v
  | None =>
      if truthy custom_headers && bool_decide (name = "Referer"%string)
      then Some (origin urlparse url)
      else defaults (fst (UserAgentManager.get manager pick)) !! name
  end.
Proof.
  unfold generate.
  destruct (UserAgentManager.get manager pick) as [ua m]. cbn [fst].
  destruct custom_headers as [h |]; cbn [truthy lacks_referer mbind option_bind];
    [| reflexivity].
  case_bool_decide as He; cbn [negb andb].
  - subst h. rewrite lookup_empty. reflexivity.
  - destruct (h !! name) as [v |] eqn:Hn.
    + now apply lookup_union_Some_l.
    + rewrite lookup_union_r by exact Hn.
      case_bool_decide as Href; cbn [andb].
      * case_bool_decide as Hname.
        { subst name. apply lookup_insert_eq. }
        { now rewrite lookup_insert_ne by congruence. }
      * case_bool_decide as Hname; [| reflexivity].
        subst name. congruence.
Qed.

(** X28. The headers that [generate] returns, name by name: the value of
    the caller when the caller gives the name; else, for [Referer], the
    origin of the URL when the caller gave some header; else the fixed
    default of the name, if any, with the user agent that the manager
    handed out. *)
Theorem generate_lookup
    (manager : UserAgentManager.t) (pick : nat) (url : string)
    (custom_headers : option (gmap string string)) (name : string) :
  fst (generate urlparse manager pick url custom_headers) !! name =
  match custom_headers ≫= (fun h => h !! name) with
  | Some v => Some v
  | None =>
      if truthy custom_headers && bool_decide (name = "Referer"%string)
      then Some (origin urlparse url)
      else defaults (fst (UserAgentManager.get manager pick)) !! name
  end.
Proof. apply generate_lookup_cases. Qed.

(** X29. The user agent of the request: unless the caller sets
    [User-Agent], the header is one of the agents of the manager. *)
Theorem generate_user_agent_from_pool
    (manager : UserAgentManager.t) (pick : nat) (url : string)
    (custom_headers : option (gmap string string)) :
  UserAgentManager.agents manager <> [] ->
  custom_headers ≫= (fun h => h !! "User-Agent"%string) = None ->
  exists ua, ua ∈ UserAgentManager.agents manager /\
    fst (generate urlparse manager pick url custom_headers) !! "User-Agent"%string
    = Some ua.
Proof.
  intros Hne Hno. exists (fst (UserAgentManager.get manager pick)).
  split; [now apply get_member |].
  rewrite generate_lookup_cases, Hno.
  rewrite bool_decide_eq_false_2 by discriminate.
  rewrite andb_false_r. reflexivity.
Qed.

End HeaderGeneratorMoreFacts.

Lemma generate_user_agent_from_pool_witness :
  exists ua, ua ∈ UserAgentManager.agents (UserAgentManager.__init__ "random") /\
    fst (HeaderGenerator.generate HeaderGenerator.example_urlparse
           (UserAgentManager.__init__ "random") 3
           "https://example.com/jobs?page=2" None) !! "User-Agent"%string
    = Some ua.
Proof.
  apply (generate_user_agent_from_pool HeaderGenerator.example_urlparse
           (UserAgentManager.__init__ "random") 3
           "https://example.com/jobs?page=2" None).
  - discriminate.
  - reflexivity.
Defined.
